(** * hit9/skiplist: a shallow embedding of skiplist.go and its properties

    The Go package keeps its nodes on the garbage-collected heap and links
    them with pointers.  The embedding makes that store explicit: a store is
    a list of nodes, a pointer is an index into it, [nil] is [None], and
    every operation passes the [SkipList] record (which carries the store)
    along.  Go panics are results of the [outcome] type.

    Go's [int] is modelled by [Z] without wrap-around: [length] and [level]
    count allocated nodes and forward slots, which cannot reach the range of
    [int] inside an address space.  Allocation never fails in the model. *)

From Stdlib Require Import ZArith Lia Ascii String.
From stdpp Require Import base list sorting sets pretty.

(** ** Results of running Go code *)

Inductive fault : Set :=
  | BadMaxLevel      (* panic("skiplist: bad maxLevel") *)
  | NilDereference   (* field or method access through nil *)
  | IndexOutOfRange  (* slice index outside [0, len) *)
  | BadMakeLen       (* make with a negative length *)
  | Dangling         (* a pointer outside the store; Go cannot produce one *)
  | RandExhausted    (* the modelled prefix of the random stream ran out *)
  | Diverged.        (* a loop did not finish within the store's size *)

Inductive outcome (A : Type) : Type :=
  | Ret (a : A)
  | Fault (f : fault).
Arguments Ret {A} a.
Arguments Fault {A} f.

Definition bind {A B} (c : outcome A) (k : A -> outcome B) : outcome B :=
  match c with
  | Ret a => k a
  | Fault f => Fault f
  end.

Notation "'let*' x ':=' c 'in' k" := (bind c (fun x => k))
  (at level 10, x name, c at level 100, k at level 200).
Notation "'let*' ' p ':=' c 'in' k" := (bind c (fun p => k))
  (at level 10, p pattern, c at level 100, k at level 200).

(** [for i := start; i < start + n; i++ { s = body i s }] *)
Fixpoint for_up {St : Type} (n start : nat) (body : nat -> St -> outcome St)
    (s : St) : outcome St :=
  match n with
  | O => Ret s
  | S n' => let* s' := body start s in for_up n' (S start) body s'
  end.

(** [for i := n - 1; i >= 0; i-- { s = body i s }] *)
Fixpoint for_down {St : Type} (n : nat) (body : nat -> St -> outcome St)
    (s : St) : outcome St :=
  match n with
  | O => Ret s
  | S i => let* s' := body i s in for_down i body s'
  end.

(** [l[i]] as an rvalue and [l[i] = v], both bounds-checked. *)
Definition index {A} (l : list A) (i : nat) : outcome A :=
  match l !! i with
  | Some v => Ret v
  | None => Fault IndexOutOfRange
  end.

Definition store_at {A} (l : list A) (i : nat) (v : A) : outcome (list A) :=
  if decide (i < length l) then Ret (<[i := v]> l) else Fault IndexOutOfRange.

(** Pointers are indices into the store. *)
Abbreviation ptr := nat (only parsing).

(** [int(FactorP * float64(0xffff))] at the default [FactorP = 0.5]:
    0.5 * 65535 = 32767.5, truncated. *)
Definition FactorP_threshold : Z := 32767.

(** The loop of [randLevel]; [draws] are the values the next calls of
    [sl.rand.Int()] return. *)
Fixpoint randLevel_loop (draws : list Z) (lvl : Z) : outcome (Z * list Z) :=
  match draws with
  | [] => Fault RandExhausted
  | r :: rest =>
      if (Z.land r 0xffff <? FactorP_threshold)%Z
      then randLevel_loop rest (lvl + 1)
      else Ret (lvl, rest)
  end.

(** The number of calls of [randLevel] a prefix of the stream can serve: each
    call consumes draws up to and including its first failed trial. *)
Definition trials (draws : list Z) : nat :=
  length (filter (fun r => (FactorP_threshold <= Z.land r 0xffff)%Z) draws).

(** [type Int int] with [func (i Int) Less(j Item) bool { return i < j.(Int) }] *)
Definition Int : Type := Z.
Definition Int_Less (i j : Int) : bool := (i <? j)%Z.

(** A random stream for the examples: the draws of a source, whatever its
    seed.  A draw of 0 is a successful trial (one more level), 65535 a failed
    one. *)
Definition demo_source (_ : Z) : list Z :=
  [65535; 0; 65535; 0; 0; 65535; 65535; 0; 0; 0; 65535; 65535; 0; 65535]%Z.

(** The item type of the example program: [type Item struct { score int;
    value string }], ordered by score alone. *)
Record ScoreItem : Type := mkScoreItem {
  score : Z;
  value : string
}.

Definition ScoreItem_Less (item than : ScoreItem) : bool :=
  (score item <? score than)%Z.

(** The text of a line feed. *)
Definition newline : string := String "010"%char EmptyString.

Section SkipList.

(** [Item] is the type behind the Go interface; the interface value [nil] is
    [None].  [Less a b] is [a.Less(b)]. *)
Context {Item : Type}.
Variable Less : Item -> Item -> bool.

(** [math/rand] is outside the repository: [randSource seed] stands for the
    values [rand.New(rand.NewSource(seed)).Int()] returns, in order. *)
Variable randSource : Z -> list Z.

Definition equal (item than : Item) : bool :=
  negb (Less item than) && negb (Less than item).

Record node : Type := mkNode {
  item : option Item;
  forwards : list (option ptr)
}.

(** The fields of the Go struct, with the store the pointers live in. *)
Record SkipList : Type := mkSkipList {
  sl_length : Z;
  sl_level : Z;
  sl_maxLevel : Z;
  sl_head : ptr;
  sl_rand : list Z;
  sl_buf : list (option ptr);
  sl_heap : list node
}.

(** The Go iterator also holds [sl], the pointer to its list; here the list's
    current state is an argument of [Next] and [Item]. *)
Record Iterator : Type := mkIterator {
  iter_n : option ptr
}.

Definition deref (h : list node) (p : option ptr) : outcome node :=
  match p with
  | None => Fault NilDereference
  | Some a =>
      match h !! a with
      | Some nd => Ret nd
      | None => Fault Dangling
      end
  end.

(** [p.forwards[i]] *)
Definition getFwd (h : list node) (p : option ptr) (i : nat)
    : outcome (option ptr) :=
  let* nd := deref h p in index (forwards nd) i.

(** [p.forwards[i] = v] *)
Definition setFwd (h : list node) (p : option ptr) (i : nat) (v : option ptr)
    : outcome (list node) :=
  let* nd := deref h p in
  let* fs := store_at (forwards nd) i v in
  match p with
  | Some a => Ret (<[a := mkNode (item nd) fs]> h)
  | None => Fault NilDereference
  end.

(** [p.item.Less(x)]: a method call on the interface value, which panics
    when the value is nil. *)
Definition itemLess (h : list node) (p : option ptr) (x : Item) : outcome bool :=
  let* nd := deref h p in
  match item nd with
  | Some y => Ret (Less y x)
  | None => Fault NilDereference
  end.

Definition newNode (h : list node) (lvl : Z) (it : option Item)
    : outcome (list node * ptr) :=
  if (lvl <? 0)%Z then Fault BadMakeLen
  else Ret (h ++ [mkNode it (replicate (Z.to_nat lvl) None)], length h).

Definition NewWithRandSeed (maxLevel : Z) (seed : Z) : outcome SkipList :=
  if (maxLevel <? 2)%Z then Fault BadMaxLevel
  else
    let* '(h, hd) := newNode [] maxLevel None in
    Ret {| sl_length := 0; sl_level := 0; sl_maxLevel := maxLevel;
           sl_head := hd; sl_rand := randSource seed;
           sl_buf := replicate (Z.to_nat maxLevel) None; sl_heap := h |}.

(** [New] seeds with [time.Now().UnixNano()], here the argument [now]. *)
Definition New (maxLevel : Z) (now : Z) : outcome SkipList :=
  NewWithRandSeed maxLevel now.

Definition Len (sl : SkipList) : Z := sl_length sl.
Definition Level (sl : SkipList) : Z := sl_level sl.
Definition MaxLevel (sl : SkipList) : Z := sl_maxLevel sl.

Definition randLevel (sl : SkipList) : outcome (Z * list Z) :=
  let* '(lvl, rest) := randLevel_loop (sl_rand sl) 1 in
  if (lvl <? sl_maxLevel sl)%Z then Ret (lvl, rest)
  else Ret (sl_maxLevel sl, rest).

Definition resetBuf (sl : SkipList) : outcome (list (option ptr)) :=
  for_up (Z.to_nat (sl_maxLevel sl)) 0
    (fun i b => store_at b i None) (sl_buf sl).

(** [for n.forwards[i] != nil && n.forwards[i].item.Less(x) { n = n.forwards[i] }] *)
Fixpoint advance (fuel : nat) (h : list node) (i : nat) (x : Item) (n : ptr)
    : outcome ptr :=
  match fuel with
  | O => Fault Diverged
  | S fuel' =>
      let* nx := getFwd h (Some n) i in
      match nx with
      | None => Ret n
      | Some m =>
          let* lt := itemLess h (Some m) x in
          if lt then advance fuel' h i x m else Ret n
      end
  end.

(** The descent of [Get] and [NewIterator]. *)
Definition descend (h : list node) (lvl : Z) (x : Item) (n : ptr) : outcome ptr :=
  for_down (Z.to_nat lvl) (fun i n => advance (length h) h i x n) n.

(** The descent of [Put] and [Delete], which records [update[i] = n]. *)
Definition descend_update (h : list node) (lvl : Z) (x : Item) (n : ptr)
    (update : list (option ptr)) : outcome (ptr * list (option ptr)) :=
  for_down (Z.to_nat lvl)
    (fun i '(n, update) =>
       let* n' := advance (length h) h i x n in
       let* update' := store_at update i (Some n') in
       Ret (n', update'))
    (n, update).

Definition Put (sl : SkipList) (x : Item) : outcome SkipList :=
  let* b := resetBuf sl in
  let* '(_, update) := descend_update (sl_heap sl) (sl_level sl) x (sl_head sl) b in
  let* '(lvl, rest) := randLevel sl in
  let* '(update, level') :=
     (if (lvl >? sl_level sl)%Z then
        let* u := for_up (Z.to_nat (lvl - sl_level sl)) (Z.to_nat (sl_level sl))
               (fun i u => store_at u i (Some (sl_head sl))) update in
        Ret (u, lvl)
      else Ret (update, sl_level sl)) in
  let* '(h, n) := newNode (sl_heap sl) lvl (Some x) in
  let* h := for_up (Z.to_nat lvl) 0
         (fun i h =>
            let* u := index update i in
            let* v := getFwd h u i in
            let* h := setFwd h (Some n) i v in
            setFwd h u i (Some n))
         h in
  Ret {| sl_length := sl_length sl + 1; sl_level := level';
         sl_maxLevel := sl_maxLevel sl; sl_head := sl_head sl;
         sl_rand := rest; sl_buf := update; sl_heap := h |}.

Definition Get (sl : SkipList) (x : Item) : outcome (option Item) :=
  let* n := descend (sl_heap sl) (sl_level sl) x (sl_head sl) in
  let* n := getFwd (sl_heap sl) (Some n) 0 in
  match n with
  | None => Ret None
  | Some m =>
      let* nd := deref (sl_heap sl) (Some m) in
      match item nd with
      | None => Fault NilDereference
      | Some y => if equal y x then Ret (Some y) else Ret None
      end
  end.

Definition Has (sl : SkipList) (x : Item) : outcome bool :=
  let* r := Get sl x in Ret (bool_decide (is_Some r)).

(** [for sl.level > 1 && head.forwards[sl.level-1] == nil { sl.level-- }] *)
Fixpoint shrink (fuel : nat) (h : list node) (hd : ptr) (lvl : Z) : outcome Z :=
  match fuel with
  | O => Fault Diverged
  | S fuel' =>
      if (lvl >? 1)%Z then
        let* v := getFwd h (Some hd) (Z.to_nat (lvl - 1)) in
        match v with
        | None => shrink fuel' h hd (lvl - 1)
        | Some _ => Ret lvl
        end
      else Ret lvl
  end.

Definition Delete (sl : SkipList) (x : Item) : outcome (SkipList * option Item) :=
  let* b := resetBuf sl in
  let* '(n, update) := descend_update (sl_heap sl) (sl_level sl) x (sl_head sl) b in
  let sl0 := {| sl_length := sl_length sl; sl_level := sl_level sl;
                sl_maxLevel := sl_maxLevel sl; sl_head := sl_head sl;
                sl_rand := sl_rand sl; sl_buf := update;
                sl_heap := sl_heap sl |} in
  let* n := getFwd (sl_heap sl) (Some n) 0 in
  match n with
  | None => Ret (sl0, None)
  | Some m =>
      let* nd := deref (sl_heap sl) n in
      match item nd with
      | None => Fault NilDereference
      | Some y =>
          if negb (equal y x) then Ret (sl0, None)
          else
            let* h := for_up (Z.to_nat (sl_level sl)) 0
                   (fun i h =>
                      let* u := index update i in
                      let* v := getFwd h u i in
                      if decide (v = n) then
                        let* w := getFwd h n i in setFwd h u i w
                      else Ret h)
                   (sl_heap sl) in
            let* lvl := shrink (S (Z.to_nat (sl_level sl))) h (sl_head sl) (sl_level sl) in
            Ret ({| sl_length := sl_length sl - 1; sl_level := lvl;
                    sl_maxLevel := sl_maxLevel sl; sl_head := sl_head sl;
                    sl_rand := sl_rand sl; sl_buf := update; sl_heap := h |},
                 Some y)
      end
  end.

Definition First (sl : SkipList) : outcome (option Item) :=
  if (sl_length sl =? 0)%Z then Ret None
  else
    let* n := getFwd (sl_heap sl) (Some (sl_head sl)) 0 in
    let* nd := deref (sl_heap sl) n in
    Ret (item nd).

Definition PopFirst (sl : SkipList) : outcome (SkipList * option Item) :=
  if (sl_length sl =? 0)%Z then Ret (sl, None)
  else
    let* n := getFwd (sl_heap sl) (Some (sl_head sl)) 0 in
    let* h := for_down (Z.to_nat (sl_level sl))
           (fun i h =>
              let* v := getFwd h (Some (sl_head sl)) i in
              if decide (v = n) then
                let* w := getFwd h n i in setFwd h (Some (sl_head sl)) i w
              else Ret h)
           (sl_heap sl) in
    let* lvl := shrink (S (Z.to_nat (sl_level sl))) h (sl_head sl) (sl_level sl) in
    let* nd := deref h n in
    Ret ({| sl_length := sl_length sl - 1; sl_level := lvl;
            sl_maxLevel := sl_maxLevel sl; sl_head := sl_head sl;
            sl_rand := sl_rand sl; sl_buf := sl_buf sl; sl_heap := h |},
         item nd).

(** [for sl.PopFirst() != nil {}] *)
Fixpoint Clear_loop (fuel : nat) (sl : SkipList) : outcome SkipList :=
  match fuel with
  | O => Fault Diverged
  | S fuel' =>
      let* '(sl', r) := PopFirst sl in
      match r with
      | None => Ret sl'
      | Some _ => Clear_loop fuel' sl'
      end
  end.

Definition Clear (sl : SkipList) : outcome SkipList :=
  Clear_loop (S (length (sl_heap sl))) sl.

Definition NewIterator (sl : SkipList) (start : option Item) : outcome Iterator :=
  match start with
  | None => Ret (mkIterator (Some (sl_head sl)))
  | Some x =>
      let* n := descend (sl_heap sl) (sl_level sl) x (sl_head sl) in
      Ret (mkIterator (Some n))
  end.

Definition Next (sl : SkipList) (iter : Iterator) : outcome (bool * Iterator) :=
  let* n := getFwd (sl_heap sl) (iter_n iter) 0 in
  Ret (bool_decide (n <> None), mkIterator n).

Definition Item_ (sl : SkipList) (iter : Iterator) : outcome (option Item) :=
  let* nd := deref (sl_heap sl) (iter_n iter) in Ret (item nd).

(** The caller's loop [for iter.Next() { out = append(out, iter.Item()) }]. *)
Fixpoint drain (fuel : nat) (sl : SkipList) (iter : Iterator)
    : outcome (list (option Item)) :=
  match fuel with
  | O => Fault Diverged
  | S fuel' =>
      let* '(more, iter') := Next sl iter in
      if (more : bool) then
        let* x := Item_ sl iter' in
        let* rest := drain fuel' sl iter' in
        Ret (x :: rest)
      else Ret []
  end.

Definition iterate (sl : SkipList) (start : option Item)
    : outcome (list (option Item)) :=
  let* iter := NewIterator sl start in
  drain (S (length (sl_heap sl))) sl iter.

(** [%v] of an item field.  [fmt] is outside the repository: [show x] stands
    for the text the verb gives for the item [x]; the nil interface prints
    as <nil>. *)
Definition show_item (show : Item -> string) (o : option Item) : string :=
  match o with
  | Some x => show x
  | None => "<nil>"
  end.

(** The inner loop of [Print]:
    [for n != nil { fmt.Fprintf(w, "%v -> ", n.item); n = n.forwards[i] }].
    The writer is the list of the texts written to it so far, one per
    [Fprintf]; the code drops the writer's errors. *)
Fixpoint Print_level (show : Item -> string) (fuel : nat) (h : list node)
    (i : nat) (n : option ptr) (w : list string) : outcome (list string) :=
  match fuel with
  | O => Fault Diverged
  | S fuel' =>
      match n with
      | None => Ret w
      | Some _ =>
          let* nd := deref h n in
          let w := w ++ [show_item show (item nd) +:+ " -> "] in
          let* nx := index (forwards nd) i in
          Print_level show fuel' h i nx w
      end
  end.

Definition Print (show : Item -> string) (sl : SkipList) (w : list string)
    : outcome (list string) :=
  for_up (Z.to_nat (sl_level sl)) 0
    (fun i w =>
       let* n := getFwd (sl_heap sl) (Some (sl_head sl)) i in
       let w := w ++ ["Level[" +:+ pretty i +:+ "]: "] in
       let* w := Print_level show (S (length (sl_heap sl))) (sl_heap sl) i n w in
       Ret (w ++ ["nil" +:+ newline]))
    w.

(** The loop of TestPopFirst, [for i := 0; i < n; i++ { item = sl.PopFirst() }],
    keeping what each call returns. *)
Fixpoint PopFirstN (n : nat) (sl : SkipList)
    : outcome (SkipList * list (option Item)) :=
  match n with
  | O => Ret (sl, [])
  | S n' =>
      let* '(sl1, r) := PopFirst sl in
      let* '(sl2, rs) := PopFirstN n' sl1 in
      Ret (sl2, r :: rs)
  end.

(** [PutAll sl xs]: [for _, x := range xs { sl.Put(x) }] *)
Fixpoint PutAll (sl : SkipList) (xs : list Item) : outcome SkipList :=
  match xs with
  | [] => Ret sl
  | x :: xs' => let* sl' := Put sl x in PutAll sl' xs'
  end.

(** ** The abstract view: towers along level 0

    A skiplist holds a sequence of towers: the nodes in level-0 order, each
    with its item and the number of levels it is linked into.  A cell is a
    tower or the head sentinel (whose item is nil). *)

Record tower : Type := mkTower {
  t_addr : ptr;
  t_item : Item;
  t_height : nat
}.

Record cell : Type := mkCell {
  c_addr : ptr;
  c_item : option Item;
  c_height : nat
}.

Definition cell_of (t : tower) : cell :=
  mkCell (t_addr t) (Some (t_item t)) (t_height t).

Definition head_cell (sl : SkipList) : cell :=
  mkCell (sl_head sl) None (Z.to_nat (sl_maxLevel sl)).

(** The cell reached from [c] after walking over the towers [p]. *)
Fixpoint cursor (c : cell) (p : list tower) : cell :=
  match p with
  | [] => c
  | t :: p' => cursor (cell_of t) p'
  end.

(** The first tower of [l] linked into level [i]. *)
Fixpoint first_at (i : nat) (l : list tower) : option ptr :=
  match l with
  | [] => None
  | t :: l' => if decide (i < t_height t) then Some (t_addr t) else first_at i l'
  end.

(** The node of cell [c] is in the store, and its level-[i] link (when it has
    one) is [v]. *)
Definition cell_ok (h : list node) (c : cell) (i : nat) (v : option ptr) : Prop :=
  exists nd, h !! c_addr c = Some nd /\ item nd = c_item c /\
    c_height c <= length (forwards nd) /\
    (i < c_height c -> forwards nd !! i = Some v).

(** Level [i] of the store links the cells [c :: l] in order. *)
Definition linked_at (h : list node) (c : cell) (l : list tower) (i : nat) : Prop :=
  forall p r, l = p ++ r -> cell_ok h (cursor c p) i (first_at i r).

(** Non-decreasing order: no item is less than an earlier one. *)
Definition sorted (xs : list Item) : Prop :=
  StronglySorted (fun a b => Less b a = false) xs.

Definition sorted_towers (l : list tower) : Prop :=
  StronglySorted (fun a b => Less (t_item b) (t_item a) = false) l.

Record rep (sl : SkipList) (l : list tower) : Prop := mkRep {
  rep_linked : forall i, linked_at (sl_heap sl) (head_cell sl) l i;
  rep_nodup : NoDup (sl_head sl :: map t_addr l);
  rep_heights : Forall (fun t => 1 <= t_height t /\
                               (Z.of_nat (t_height t) <= sl_level sl)%Z) l;
  rep_sorted : sorted_towers l;
  rep_length : sl_length sl = Z.of_nat (length l);
  rep_level : (0 <= sl_level sl <= sl_maxLevel sl)%Z;
  rep_maxLevel : (2 <= sl_maxLevel sl)%Z;
  rep_top : (1 < sl_level sl)%Z ->
            first_at (Z.to_nat (sl_level sl - 1)) l <> None;
  rep_fresh : sl_level sl = 0%Z -> l = [];
  rep_buf : length (sl_buf sl) = Z.to_nat (sl_maxLevel sl)
}.

(** The items put and not yet removed, along the API calls that lead to a
    state. *)
Inductive reach : SkipList -> list Item -> Prop :=
  | reach_new maxLevel seed sl :
      NewWithRandSeed maxLevel seed = Ret sl -> reach sl []
  | reach_put sl bag x sl' :
      reach sl bag -> Put sl x = Ret sl' -> reach sl' (x :: bag)
  | reach_delete sl bag x sl' y bag' :
      reach sl bag -> Delete sl x = Ret (sl', Some y) ->
      bag ≡ₚ y :: bag' -> reach sl' bag'
  | reach_delete_absent sl bag x sl' :
      reach sl bag -> Delete sl x = Ret (sl', None) -> reach sl' bag
  | reach_pop sl bag sl' y bag' :
      reach sl bag -> PopFirst sl = Ret (sl', Some y) ->
      bag ≡ₚ y :: bag' -> reach sl' bag'
  | reach_pop_empty sl bag sl' :
      reach sl bag -> PopFirst sl = Ret (sl', None) -> reach sl' bag
  | reach_clear sl bag sl' :
      reach sl bag -> Clear sl = Ret sl' -> reach sl' [].

(** The specification's account of PopFirst: Delete of the item that First
    reports. *)
Definition DeleteFirst (sl : SkipList) : outcome (SkipList * option Item) :=
  let* r := First sl in
  match r with
  | None => Ret (sl, None)
  | Some y => Delete sl y
  end.

(** Towers that level [i] does not see, and towers on either side of [x]. *)
Definition low (i : nat) (t : tower) : Prop := t_height t <= i.

Definition below (x : Item) (t : tower) : Prop := Less (t_item t) x = true.
Definition not_below (x : Item) (t : tower) : Prop := Less (t_item t) x = false.

(** [u] is the last cell of [c :: pre] linked into level [k]. *)
Definition pred_at (c : cell) (pre : list tower) (k : nat) (u : cell) : Prop :=
  exists q1 q2, pre = q1 ++ q2 /\ u = cursor c q1 /\
                Forall (low k) q2 /\ k < c_height u.

(** [sl] with another scratch buffer. *)
Definition with_buf (sl : SkipList) (b : list (option ptr)) : SkipList :=
  {| sl_length := sl_length sl; sl_level := sl_level sl;
     sl_maxLevel := sl_maxLevel sl; sl_head := sl_head sl;
     sl_rand := sl_rand sl; sl_buf := b; sl_heap := sl_heap sl |}.

(** One round of the unlinking loop of [PopFirst]. *)
Definition unlink_head (hd n : ptr) (i : nat) (h : list node)
    : outcome (list node) :=
  let* v := getFwd h (Some hd) i in
  if decide (v = Some n) then
    let* w := getFwd h (Some n) i in setFwd h (Some hd) i w
  else Ret h.

(** The head's links once the levels in [a, b) are done. *)
Definition unlinked (F G : list (option ptr)) (n : ptr) (a b : nat)
    (F' : list (option ptr)) : Prop :=
  length F' = length F /\
  forall j, F' !! j =
    if decide (a <= j < b /\ F !! j = Some (Some n)) then G !! j else F !! j.

(** The items of a tower list, in level-0 order. *)
Definition items (l : list tower) : list Item := map t_item l.

(** The items linked into level [i]. *)
Definition level_items (i : nat) (l : list tower) : list Item :=
  items (filter (fun t => i < t_height t) l).

(** What [Print] writes for level [i] holding [xs], and for the levels from
    [i] on. *)
Definition print_level (show : Item -> string) (i : nat) (xs : list Item)
    : list string :=
  ["Level[" +:+ pretty i +:+ "]: "] ++ map (fun x => show x +:+ " -> ") xs
    ++ ["nil" +:+ newline].

Fixpoint print_lines (show : Item -> string) (i : nat)
    (levels : list (list Item)) : list string :=
  match levels with
  | [] => []
  | xs :: rest => print_level show i xs ++ print_lines show (S i) rest
  end.

(** [Less] is a strict weak order, as the interface asks of [Item.Less]. *)
Hypothesis Less_irrefl : forall a, Less a a = false.
Hypothesis Less_trans :
  forall a b c, Less a b = true -> Less b c = true -> Less a c = true.
Hypothesis Less_negtrans :
  forall a b c, Less a b = false -> Less b c = false -> Less a c = false.

(** ** Monad and loop lemmas *)

Lemma bind_Ret {A B} (c : outcome A) (k : A -> outcome B) b :
  bind c k = Ret b -> exists a, c = Ret a /\ k a = Ret b.
Proof. destruct c; simpl; [eauto | discriminate]. Qed.

Lemma for_up_inv {St} (P : nat -> St -> Prop) body n start (s : St) :
  P start s ->
  (forall i s, start <= i < start + n -> P i s ->
     exists s', body i s = Ret s' /\ P (S i) s') ->
  exists s', for_up n start body s = Ret s' /\ P (start + n) s'.
Proof.
  revert start s. induction n as [|n IH]; intros start s HP Hstep; simpl.
  - exists s. split; [done|]. by replace (start + 0) with start by lia.
  - destruct (Hstep start s) as (s1 & -> & HP1); [lia | done |]. simpl.
    destruct (IH (S start) s1) as (s2 & -> & HP2); [done | |].
    + intros i s' Hi. apply Hstep. lia.
    + exists s2. split; [done|]. by replace (start + S n) with (S start + n) by lia.
Qed.

Lemma for_down_inv {St} (P : nat -> St -> Prop) body n (s : St) :
  P n s ->
  (forall i s, i < n -> P (S i) s -> exists s', body i s = Ret s' /\ P i s') ->
  exists s', for_down n body s = Ret s' /\ P 0 s'.
Proof.
  revert s. induction n as [|n IH]; intros s HP Hstep; simpl.
  - by exists s.
  - destruct (Hstep n s) as (s1 & -> & HP1); [lia | done |]. simpl.
    apply IH; [done|]. intros i s' Hi. apply Hstep. lia.
Qed.

(** ** Lists of towers *)

Lemma first_at_app_low i s r :
  Forall (low i) s -> first_at i (s ++ r) = first_at i r.
Proof.
  induction 1 as [|t s Ht _ IH]; simpl; [done|].
  unfold low in Ht. case_decide; [lia | done].
Qed.

Lemma first_at_None i l : first_at i l = None <-> Forall (low i) l.
Proof.
  induction l as [|t l IH]; simpl.
  - split; [constructor | done].
  - case_decide.
    + split; [done|]. intros Hl. apply Forall_cons in Hl as [Hl _].
      unfold low in Hl. lia.
    + rewrite IH. split.
      * intros Hl. constructor; [unfold low; lia | done].
      * intros Hl. by apply Forall_cons in Hl as [_ Hl].
Qed.

Lemma first_at_Some i l a :
  first_at i l = Some a ->
  exists p t r, l = p ++ t :: r /\ a = t_addr t /\ i < t_height t /\
                Forall (low i) p.
Proof.
  induction l as [|t l IH]; simpl; [done|].
  case_decide as Hi.
  - intros [= <-]. exists [], t, l. by repeat split.
  - intros (p & t' & r & -> & -> & Hlt & Hp)%IH.
    exists (t :: p), t', r. repeat split; [done..|].
    constructor; [unfold low; lia | done].
Qed.

Lemma first_at_app_not_low i s r r' :
  ~ Forall (low i) s -> first_at i (s ++ r) = first_at i (s ++ r').
Proof.
  induction s as [|t s IH]; simpl; intros Hs.
  - destruct Hs. constructor.
  - case_decide; [done|]. apply IH. intros Hl. apply Hs.
    constructor; [unfold low; lia | done].
Qed.

Lemma first_at_cons_low i t r : low i t -> first_at i (t :: r) = first_at i r.
Proof. unfold low. simpl. intros. case_decide; [lia | done]. Qed.

Lemma first_at_cons_high i t r :
  i < t_height t -> first_at i (t :: r) = Some (t_addr t).
Proof. simpl. intros. case_decide; [done | lia]. Qed.

Lemma low_dec i s : Decision (Forall (low i) s).
Proof. apply Forall_dec. intros t. unfold low. apply _. Qed.

Lemma cursor_app c p q : cursor c (p ++ q) = cursor (cursor c p) q.
Proof. revert c. induction p as [|t p IH]; intros c; simpl; [done | apply IH]. Qed.

Lemma cursor_snoc c p t : cursor c (p ++ [t]) = cell_of t.
Proof. by rewrite cursor_app. Qed.

Lemma cursor_nonempty c c' p : p <> [] -> cursor c p = cursor c' p.
Proof. destruct p; [done | by simpl]. Qed.

Lemma cursor_last c p :
  p <> [] -> exists t, t ∈ p /\ cursor c p = cell_of t.
Proof.
  intros Hp. destruct (exists_last Hp) as (p' & t & ->).
  exists t. split; [set_solver | apply cursor_snoc].
Qed.

Lemma cursor_addr_in c p : c_addr (cursor c p) ∈ c_addr c :: map t_addr p.
Proof.
  destruct p as [|t0 p0] eqn:E; [set_solver|]. rewrite <- E.
  destruct (cursor_last c p) as (t & Ht & ->); [by subst|].
  apply elem_of_cons. right. apply (list_elem_of_fmap_2 t_addr _ _ Ht).
Qed.

Lemma cursor_inj c l p r p' r' :
  NoDup (c_addr c :: map t_addr l) ->
  l = p ++ r -> l = p' ++ r' ->
  c_addr (cursor c p) = c_addr (cursor c p') -> p = p'.
Proof.
  revert c l p'. induction p as [|t p IH]; intros c l p' Hnd -> Hl Heq.
  - destruct p' as [|t' p']; [done|]. simpl in *.
    apply NoDup_cons in Hnd as [Hc _]. destruct Hc.
    rewrite Heq, Hl.
    pose proof (cursor_addr_in (cell_of t') p') as Hin. simpl in Hin.
    change (t' :: p' ++ r') with ((t' :: p') ++ r').
    rewrite map_app. apply (elem_of_app (_ :: _)). by left.
  - destruct p' as [|t' p'].
    + simpl in *. apply NoDup_cons in Hnd as [Hc _]. destruct Hc.
      rewrite <- Heq.
      pose proof (cursor_addr_in (cell_of t) p) as Hin. simpl in Hin.
      change (t :: p ++ r) with ((t :: p) ++ r).
      rewrite map_app. apply (elem_of_app (_ :: _)). by left.
    + simpl in Hl. injection Hl as <- Hl. f_equal.
      apply (IH (cell_of t) (p ++ r) p'); [|done|done|done].
      simpl in *. by apply NoDup_cons in Hnd as [_ Hnd].
Qed.

Lemma pred_at_unique c pre k u p r :
  pred_at c pre k u -> pre = p ++ r -> Forall (low k) r ->
  k < c_height (cursor c p) -> u = cursor c p.
Proof.
  intros (q1 & q2 & -> & -> & Hq2 & Hk) Heq Hr Hp.
  apply app_eq_app in Heq as [m [[-> ->]|[-> ->]]].
  - destruct m as [|t0 m0] eqn:E; [by rewrite app_nil_r|]. rewrite <- E in *.
    destruct (cursor_last (cursor c p) m) as (t & Ht & Hc); [by subst|].
    rewrite cursor_app, Hc in Hk. apply Forall_app in Hr as [Hm _].
    rewrite Forall_forall in Hm. specialize (Hm t Ht). unfold low in Hm.
    simpl in Hk. lia.
  - destruct m as [|t0 m0] eqn:E; [by rewrite app_nil_r|]. rewrite <- E in *.
    destruct (cursor_last (cursor c q1) m) as (t & Ht & Hc); [by subst|].
    rewrite cursor_app, Hc in Hp. apply Forall_app in Hq2 as [Hm _].
    rewrite Forall_forall in Hm. specialize (Hm t Ht). unfold low in Hm.
    simpl in Hp. lia.
Qed.

(** ** The store *)

Lemma cell_ok_getFwd h c i v :
  cell_ok h c i v -> i < c_height c -> getFwd h (Some (c_addr c)) i = Ret v.
Proof.
  intros (nd & Hnd & _ & _ & Hv) Hi. unfold getFwd, deref, index.
  rewrite Hnd. simpl. by rewrite (Hv Hi).
Qed.

Lemma cell_ok_deref h c i v :
  cell_ok h c i v ->
  exists nd, deref h (Some (c_addr c)) = Ret nd /\ item nd = c_item c.
Proof.
  intros (nd & Hnd & Hit & _). exists nd. unfold deref. by rewrite Hnd.
Qed.

Lemma cell_ok_level h c i j v w :
  cell_ok h c i v -> c_height c <= j -> cell_ok h c j w.
Proof.
  intros (nd & Hnd & Hit & Hlen & _) Hj. exists nd. repeat split; [done..|lia].
Qed.

Lemma setFwd_Ret h a k v h' :
  setFwd h (Some a) k v = Ret h' ->
  exists nd, h !! a = Some nd /\ k < length (forwards nd) /\
             h' = <[a := mkNode (item nd) (<[k := v]> (forwards nd))]> h.
Proof.
  unfold setFwd, deref, store_at. destruct (h !! a) as [nd|] eqn:E; [|done].
  simpl. case_decide; [|done]. simpl. intros [= <-]. eauto.
Qed.

Lemma setFwd_total h c k w v :
  cell_ok h c k w -> k < c_height c ->
  exists h', setFwd h (Some (c_addr c)) k v = Ret h'.
Proof.
  intros (nd & Hnd & _ & Hlen & _) Hk. unfold setFwd, deref, store_at.
  rewrite Hnd. simpl. case_decide; [|lia]. simpl. eauto.
Qed.

Lemma setFwd_length h a k v h' :
  setFwd h (Some a) k v = Ret h' -> length h' = length h.
Proof. intros (nd & _ & _ & ->)%setFwd_Ret. apply length_insert. Qed.

Lemma cell_ok_set_other_addr h a k v h' c i w :
  setFwd h (Some a) k v = Ret h' -> c_addr c <> a ->
  cell_ok h c i w -> cell_ok h' c i w.
Proof.
  intros (nd & _ & _ & ->)%setFwd_Ret Hne (nd' & Hnd' & H).
  exists nd'. split; [|done]. by rewrite list_lookup_insert_ne.
Qed.

Lemma cell_ok_set_other_level h a k v h' c i w :
  setFwd h (Some a) k v = Ret h' -> i <> k ->
  cell_ok h c i w -> cell_ok h' c i w.
Proof.
  intros Hset Hne Hc. destruct (decide (c_addr c = a)) as [Ha|Ha];
    [subst a | by eapply cell_ok_set_other_addr].
  apply setFwd_Ret in Hset as (nd & Hnd & Hk & ->).
  destruct Hc as (nd' & Hnd' & Hit & Hlen & Hv).
  assert (nd' = nd) as -> by congruence.
  eexists. split; [apply list_lookup_insert_eq; by eapply lookup_lt_Some|].
  simpl. rewrite length_insert. repeat split; [done..|].
  intros Hi. rewrite list_lookup_insert_ne; [auto | done].
Qed.

Lemma cell_ok_set_same h c k v h' w :
  setFwd h (Some (c_addr c)) k v = Ret h' ->
  cell_ok h c k w -> cell_ok h' c k v.
Proof.
  intros (nd & Hnd & Hk & ->)%setFwd_Ret (nd' & Hnd' & Hit & Hlen & Hv).
  assert (nd' = nd) as -> by congruence.
  eexists. split; [apply list_lookup_insert_eq; by eapply lookup_lt_Some|].
  simpl. rewrite length_insert. repeat split; [done..|].
  intros _. by apply list_lookup_insert_eq.
Qed.

Lemma linked_at_set_other_level h a k v h' c l i :
  setFwd h (Some a) k v = Ret h' -> i <> k ->
  linked_at h c l i -> linked_at h' c l i.
Proof.
  intros Hset Hne Hl p r Hpr. eapply cell_ok_set_other_level; eauto.
Qed.

(** ** Relinking one level *)

Lemma split_mid (p r pre : list tower) t post :
  p ++ r = pre ++ t :: post ->
  (exists r', pre = p ++ r' /\ r = r' ++ t :: post) \/
  (exists p', p = pre ++ t :: p' /\ post = p' ++ r).
Proof.
  intros [m [[-> Hm]|[-> ->]]]%app_eq_app; [|left; eauto].
  destruct m as [|t' m]; simpl in Hm.
  - left. exists []. by rewrite !app_nil_r.
  - injection Hm as <- ->. right. eauto.
Qed.

Lemma split_two (p r pre post : list tower) :
  p ++ r = pre ++ post ->
  (exists r', pre = p ++ r' /\ r = r' ++ post) \/
  (exists t p', p = pre ++ t :: p' /\ post = t :: p' ++ r).
Proof.
  intros [m [[-> ->]|[-> ->]]]%app_eq_app; [|left; eauto].
  destruct m as [|t' m].
  - left. exists []. by rewrite !app_nil_r.
  - right. eauto.
Qed.

Lemma first_at_mid_low i r t post :
  low i t -> first_at i (r ++ t :: post) = first_at i (r ++ post).
Proof.
  intros Ht. induction r as [|t' r IH]; simpl.
  - by apply first_at_cons_low.
  - by rewrite IH.
Qed.

Lemma cursor_mid c pre t t' p :
  cursor c (pre ++ t :: t' :: p) = cursor c (pre ++ t' :: p).
Proof. by rewrite !cursor_app. Qed.

Lemma cursor_addr_ne c l p r p' r' :
  NoDup (c_addr c :: map t_addr l) ->
  l = p ++ r -> l = p' ++ r' -> length p <> length p' ->
  c_addr (cursor c p) <> c_addr (cursor c p').
Proof.
  intros Hnd Hl Hl' Hlen Heq. apply Hlen. f_equal. by eapply cursor_inj.
Qed.

Lemma linked_at_tower h c l i p t r :
  linked_at h c l i -> l = p ++ t :: r -> cell_ok h (cell_of t) i (first_at i r).
Proof.
  intros Hl ->. rewrite <- (cursor_snoc c p t). apply Hl.
  by rewrite <- app_assoc.
Qed.

(** A tower that level [i] does not see can be dropped from the list ... *)
Lemma linked_at_remove_low h c pre t post i :
  linked_at h c (pre ++ t :: post) i -> low i t ->
  linked_at h c (pre ++ post) i.
Proof.
  intros Hl Ht p r Hpr. symmetry in Hpr.
  apply split_two in Hpr as [(r' & -> & ->)|(t' & p' & -> & ->)].
  - rewrite <- (first_at_mid_low i r' t post Ht). apply Hl.
    by rewrite <- app_assoc.
  - rewrite <- (cursor_mid c pre t t' p'). apply Hl.
    by rewrite <- !app_assoc.
Qed.

(** ... or added to it, once its node is in the store. *)
Lemma linked_at_insert_low h c pre t post i w :
  linked_at h c (pre ++ post) i -> low i t ->
  cell_ok h (cell_of t) i w ->
  linked_at h c (pre ++ t :: post) i.
Proof.
  intros Hl Ht Hc p r Hpr. symmetry in Hpr.
  apply split_mid in Hpr as [(r' & -> & ->)|(p' & -> & ->)].
  - rewrite (first_at_mid_low i r' t post Ht). apply Hl.
    by rewrite <- app_assoc.
  - destruct p' as [|t' p'].
    + rewrite cursor_snoc. eapply cell_ok_level; [done|]. apply Ht.
    + rewrite cursor_mid. apply Hl. by rewrite <- !app_assoc.
Qed.

(** The value a cell before the changed place keeps at level [k]. *)
Lemma cell_ok_pred_other h c pre k u p r' post post' :
  pred_at c pre k u -> pre = p ++ r' -> u <> cursor c p ->
  cell_ok h (cursor c p) k (first_at k (r' ++ post)) ->
  cell_ok h (cursor c p) k (first_at k (r' ++ post')).
Proof.
  intros Hu Hpre Hne Hc. destruct (low_dec k r') as [Hlow|Hlow].
  - destruct (decide (k < c_height (cursor c p))) as [Hk|Hk].
    + destruct Hne. by eapply pred_at_unique.
    + eapply cell_ok_level; [done | lia].
  - by rewrite (first_at_app_not_low k r' post' post).
Qed.

(** [u.forwards[k] = t.forwards[k]] unlinks [t] from level [k]. *)
Lemma linked_at_splice_out h c pre t post k u h' :
  linked_at h c (pre ++ t :: post) k ->
  NoDup (c_addr c :: map t_addr (pre ++ t :: post)) ->
  pred_at c pre k u ->
  setFwd h (Some (c_addr u)) k (first_at k post) = Ret h' ->
  linked_at h' c (pre ++ post) k.
Proof.
  intros Hl Hnd Hu Hset p r Hpr. symmetry in Hpr.
  pose proof Hu as (q1 & q2 & Hpre & Hq1 & Hq2 & Hk).
  apply split_two in Hpr as [(r' & Hp & ->)|(t' & p' & -> & ->)].
  - assert (cell_ok h (cursor c p) k (first_at k (r' ++ t :: post))) as Hold.
    { apply Hl. rewrite Hp. by rewrite <- app_assoc. }
    destruct (decide (c_addr (cursor c p) = c_addr u)) as [Heq|Hne].
    + assert (p = q1) as ->.
      { rewrite Hq1 in Heq.
        eapply (cursor_inj c _ _ (r' ++ t :: post) _ (q2 ++ t :: post)); [done| | |done].
        - rewrite Hp. by rewrite <- app_assoc.
        - rewrite Hpre. by rewrite <- app_assoc. }
      assert (r' = q2) as -> by (rewrite Hp in Hpre; by apply app_inv_head in Hpre).
      rewrite first_at_app_low by done.
      rewrite <- Hq1 in *. by eapply cell_ok_set_same.
    + eapply cell_ok_set_other_addr; [done..|].
      eapply cell_ok_pred_other; [done..| |done]. by intros ->.
  - rewrite <- (cursor_mid c pre t t' p').
    eapply cell_ok_set_other_addr; [done| |].
    + rewrite Hq1.
      eapply (cursor_addr_ne c _ _ r _ (q2 ++ t :: t' :: p' ++ r)); [done| | |].
      * by rewrite <- !app_assoc.
      * rewrite Hpre. by rewrite <- !app_assoc.
      * rewrite Hpre, !length_app. simpl. lia.
    + apply Hl. by rewrite <- !app_assoc.
Qed.

(** [t.forwards[k] = u.forwards[k]; u.forwards[k] = t] links [t] into
    level [k]. *)
Lemma linked_at_splice_in h c pre t post k u w h1 h2 :
  linked_at h c (pre ++ post) k ->
  NoDup (c_addr c :: map t_addr (pre ++ t :: post)) ->
  pred_at c pre k u ->
  cell_ok h (cell_of t) k w -> k < t_height t ->
  setFwd h (Some (t_addr t)) k (first_at k post) = Ret h1 ->
  setFwd h1 (Some (c_addr u)) k (Some (t_addr t)) = Ret h2 ->
  linked_at h2 c (pre ++ t :: post) k.
Proof.
  intros Hl Hnd Hu Ht Hk Hset1 Hset2 p r Hpr. symmetry in Hpr.
  pose proof Hu as (q1 & q2 & Hpre & Hq1 & Hq2 & Hku).
  assert (forall p0 r0, pre ++ t :: post = p0 ++ r0 ->
            length p0 <> S (length pre) ->
            c_addr (cursor c p0) <> t_addr t) as Hnt.
  { intros p0 r0 Hp0 Hlen. change (t_addr t) with (c_addr (cell_of t)).
    rewrite <- (cursor_snoc c pre t).
    eapply (cursor_addr_ne c _ _ r0 _ post); [done|done| |].
    - by rewrite <- app_assoc.
    - rewrite length_app. simpl. lia. }
  assert (c_addr u <> t_addr t) as Hut.
  { rewrite Hq1. apply (Hnt q1 (q2 ++ t :: post)).
    - rewrite Hpre. by rewrite <- !app_assoc.
    - rewrite Hpre, length_app. lia. }
  apply split_mid in Hpr as [(r' & Hp & ->)|(p' & -> & ->)].
  - assert (cell_ok h (cursor c p) k (first_at k (r' ++ post))) as Hold.
    { apply Hl. rewrite Hp. by rewrite <- app_assoc. }
    assert (c_addr (cursor c p) <> t_addr t) as Hpt.
    { apply (Hnt p (r' ++ t :: post)).
      - rewrite Hp. by rewrite <- app_assoc.
      - rewrite Hp, length_app. lia. }
    apply (cell_ok_set_other_addr _ _ _ _ _ _ _ _ Hset1 Hpt) in Hold.
    destruct (decide (c_addr (cursor c p) = c_addr u)) as [Heq|Hne].
    + assert (p = q1) as ->.
      { rewrite Hq1 in Heq.
        eapply (cursor_inj c _ _ (r' ++ t :: post) _ (q2 ++ t :: post)); [done| | |done].
        - rewrite Hp. by rewrite <- app_assoc.
        - rewrite Hpre. by rewrite <- app_assoc. }
      assert (r' = q2) as -> by (rewrite Hp in Hpre; by apply app_inv_head in Hpre).
      rewrite first_at_app_low, first_at_cons_high by done.
      rewrite <- Hq1 in *. by eapply cell_ok_set_same.
    + eapply cell_ok_set_other_addr; [done..|].
      eapply cell_ok_pred_other; [done..| |done]. by intros ->.
  - destruct p' as [|t' p'].
    + rewrite cursor_snoc. simpl.
      eapply cell_ok_set_other_addr; [done| simpl; congruence |].
      by eapply (cell_ok_set_same h (cell_of t)).
    + rewrite cursor_mid.
      assert (forall a, a = t_addr t \/ a = c_addr u ->
                c_addr (cursor c (pre ++ t' :: p')) <> a) as Hne.
      { rewrite <- (cursor_mid c pre t t' p').
        intros a [->| ->].
        - apply (Hnt _ r); [by rewrite <- !app_assoc|].
          rewrite length_app. simpl. lia.
        - rewrite Hq1.
          eapply (cursor_addr_ne c _ _ r _ (q2 ++ t :: t' :: p' ++ r)); [done| | |].
          + by rewrite <- !app_assoc.
          + rewrite Hpre. by rewrite <- !app_assoc.
          + rewrite Hpre, !length_app. simpl. lia. }
      eapply cell_ok_set_other_addr; [done | apply Hne; by right |].
      eapply cell_ok_set_other_addr; [done | apply Hne; by left |].
      apply Hl. by rewrite <- !app_assoc.
Qed.

(** ** The descent *)

(** The towers whose items are less than [x] are a prefix. *)
Lemma sorted_split l x :
  sorted_towers l ->
  exists pre post, l = pre ++ post /\ Forall (below x) pre /\
                   Forall (not_below x) post.
Proof.
  induction l as [|t l IH]; intros Hs.
  - exists [], []. by repeat split.
  - apply StronglySorted_cons in Hs as [Ht Hs].
    destruct (Less (t_item t) x) eqn:E.
    + destruct (IH Hs) as (pre & post & -> & Hpre & Hpost).
      exists (t :: pre), post. repeat split; [|done]. by constructor.
    + exists [], (t :: l). repeat split; [done|]. constructor; [done|].
      eapply Forall_impl; [exact Ht|]. intros t' Ht'. unfold not_below.
      by apply (Less_negtrans _ (t_item t)).
Qed.

Lemma itemLess_tower h t i v x :
  cell_ok h (cell_of t) i v ->
  itemLess h (Some (t_addr t)) x = Ret (Less (t_item t) x).
Proof.
  intros (nd & Hnd & Hit & _). unfold itemLess, deref. simpl in *.
  rewrite Hnd. simpl. by rewrite Hit.
Qed.

Lemma advance_spec h c l i x post : forall p2 p1 s fuel,
  linked_at h c l i ->
  l = p1 ++ s ++ p2 ++ post ->
  Forall (low i) s -> Forall (below x) p2 -> Forall (not_below x) post ->
  i < c_height (cursor c p1) ->
  length p2 < fuel ->
  exists q1 q2, p1 ++ s ++ p2 = q1 ++ q2 /\ Forall (low i) q2 /\
    i < c_height (cursor c q1) /\
    advance fuel h i x (c_addr (cursor c p1)) = Ret (c_addr (cursor c q1)).
Proof.
  induction p2 as [|t p2 IH]; intros p1 s fuel Hl Heq Hs Hp2 Hpost Hi Hfuel.
  - exists p1, s. rewrite app_nil_r. repeat split; [done..|].
    destruct fuel as [|fuel]; [simpl in Hfuel; lia|]. simpl.
    rewrite (cell_ok_getFwd h _ i (first_at i (s ++ post))); [|by apply Hl|done].
    simpl. rewrite first_at_app_low by done.
    destruct (first_at i post) as [a|] eqn:E; [|done].
    apply first_at_Some in E as (pp & t & rr & -> & -> & _ & _).
    erewrite itemLess_tower.
    2:{ eapply (linked_at_tower h c l i (p1 ++ s ++ pp)); [done|].
        rewrite Heq. simpl. by rewrite <- !app_assoc. }
    simpl. apply Forall_app in Hpost as [_ Hpost].
    apply Forall_cons in Hpost as [Ht _]. unfold not_below in Ht. by rewrite Ht.
  - apply Forall_cons in Hp2 as [Ht Hp2].
    destruct (decide (i < t_height t)) as [Hhigh|Hlow].
    + destruct fuel as [|fuel]; [simpl in Hfuel; lia|].
      destruct (IH (p1 ++ s ++ [t]) [] fuel) as (q1 & q2 & Hq & Hq2 & Hq1 & Hadv);
        [done| |done..| | |].
      * rewrite Heq. simpl. by rewrite <- !app_assoc.
      * rewrite !cursor_app. by simpl.
      * simpl in Hfuel. lia.
      * exists q1, q2. repeat split; [|done..|].
        { rewrite <- Hq. simpl. by rewrite <- !app_assoc. }
        simpl.
        rewrite (cell_ok_getFwd h _ i (first_at i (s ++ t :: p2 ++ post)));
          [|by apply Hl|done].
        simpl. rewrite first_at_app_low, first_at_cons_high by done.
        erewrite itemLess_tower.
        2:{ eapply (linked_at_tower h c l i (p1 ++ s)); [done|].
            rewrite Heq. by rewrite <- !app_assoc. }
        simpl. unfold below in Ht. rewrite Ht.
        rewrite !cursor_app in Hadv. simpl in Hadv. by rewrite <- Hadv.
    + destruct (IH p1 (s ++ [t]) fuel) as (q1 & q2 & Hq & Hq2 & Hq1 & Hadv);
        [done| | |done..| |].
      * rewrite Heq. by rewrite <- !app_assoc.
      * apply Forall_app. split; [done|]. constructor; [unfold low; lia | done].
      * simpl in Hfuel. lia.
      * exists q1, q2. repeat split; [|done..].
        rewrite <- Hq. by rewrite <- !app_assoc.
Qed.

(** One level of the descent, from a cell that is linked into it. *)
Lemma advance_level h c l i x pre post q1 q2 :
  linked_at h c l i -> l = pre ++ post ->
  Forall (below x) pre -> Forall (not_below x) post ->
  pre = q1 ++ q2 -> i < c_height (cursor c q1) ->
  length l < length h ->
  exists u, pred_at c pre i u /\
    (exists q1' q2', pre = q1' ++ q2' /\ u = cursor c q1' /\ Forall (low i) q2') /\
    advance (length h) h i x (c_addr (cursor c q1)) = Ret (c_addr u).
Proof.
  intros Hl Heq Hpre Hpost Hq Hi Hfuel.
  destruct (advance_spec h c l i x post q2 q1 [] (length h))
    as (q1' & q2' & Hq' & Hlow & Hhi & Hadv); [done| |done| |done..| |].
  - rewrite Heq, Hq. simpl. by rewrite <- app_assoc.
  - rewrite Hq in Hpre. by apply Forall_app in Hpre as [_ ?].
  - rewrite Heq, Hq, !length_app in Hfuel. lia.
  - simpl in Hq'. exists (cursor c q1').
    split; [|split; [|done]].
    + exists q1', q2'. by rewrite Hq, Hq'.
    + exists q1', q2'. by rewrite Hq, Hq'.
Qed.

Lemma descend_update_spec h c l x pre post lvl b :
  (forall i, linked_at h c l i) -> l = pre ++ post ->
  Forall (below x) pre -> Forall (not_below x) post ->
  length l < length h ->
  Forall (fun t => 1 <= t_height t <= Z.to_nat lvl) l ->
  Z.to_nat lvl <= c_height c -> Z.to_nat lvl <= length b ->
  exists upd,
    descend_update h lvl x (c_addr c) b = Ret (c_addr (cursor c pre), upd) /\
    length upd = length b /\
    (forall j, j < Z.to_nat lvl ->
       exists u, upd !! j = Some (Some (c_addr u)) /\ pred_at c pre j u) /\
    (forall j, Z.to_nat lvl <= j -> upd !! j = b !! j).
Proof.
  intros Hl Heq Hpre Hpost Hfuel Hh Hc Hb. unfold descend_update.
  set (N := Z.to_nat lvl) in *.
  destruct (for_down_inv
    (fun k '(n, upd) =>
       exists q1 q2, pre = q1 ++ q2 /\ n = c_addr (cursor c q1) /\
         Forall (low k) q2 /\ k <= c_height (cursor c q1) /\
         length upd = length b /\
         (forall j, k <= j < N ->
            exists u, upd !! j = Some (Some (c_addr u)) /\ pred_at c pre j u) /\
         (forall j, N <= j -> upd !! j = b !! j))
    (fun i '(n, update) =>
       let* n' := advance (length h) h i x n in
       let* update' := store_at update i (Some n') in
       Ret (n', update'))
    N (c_addr c, b)) as ([n upd] & Hrun & HP).
  - exists [], pre. repeat split; simpl; try done; try (intros; lia).
    rewrite Heq in Hh. apply Forall_app in Hh as [Hh _].
    eapply Forall_impl; [exact Hh|]. intros t Ht. simpl in Ht. unfold low. lia.
  - intros i [n upd] Hi (q1 & q2 & Hq & -> & Hq2 & Hk & Hlen & Hupd & Hrest).
    destruct (advance_level h c l i x pre post q1 q2)
      as (u & Hu & (q1' & q2' & Hq' & -> & Hq2') & ->); [done..|lia|done|].
    simpl. unfold store_at. case_decide; [|lia]. simpl.
    eexists (_, _). split; [done|].
    exists q1', q2'. repeat split; [done..| | | |].
    + destruct Hu as (_ & _ & _ & _ & _ & Hu). lia.
    + by rewrite length_insert.
    + intros j Hj. destruct (decide (j = i)) as [->|Hne].
      * exists (cursor c q1'). split; [|done]. by apply list_lookup_insert_eq.
      * rewrite list_lookup_insert_ne by done. apply Hupd. lia.
    + intros j Hj. rewrite list_lookup_insert_ne by lia. by apply Hrest.
  - destruct HP as (q1 & q2 & Hq & -> & Hq2 & _ & Hlen & Hupd & Hrest).
    assert (q2 = []) as ->.
    { destruct q2 as [|t q2]; [done|]. apply Forall_cons in Hq2 as [Ht _].
      rewrite Heq, Hq in Hh. apply Forall_app in Hh as [Hh _].
      apply Forall_app in Hh as [_ Hh]. apply Forall_cons in Hh as [Ht' _].
      unfold low in Ht. lia. }
    rewrite app_nil_r in Hq. subst q1. exists upd.
    repeat split; [done..| |done]. intros j Hj. apply Hupd. lia.
Qed.

Lemma descend_spec h c l x pre post lvl :
  (forall i, linked_at h c l i) -> l = pre ++ post ->
  Forall (below x) pre -> Forall (not_below x) post ->
  length l < length h ->
  Forall (fun t => 1 <= t_height t <= Z.to_nat lvl) l ->
  Z.to_nat lvl <= c_height c ->
  descend h lvl x (c_addr c) = Ret (c_addr (cursor c pre)).
Proof.
  intros Hl Heq Hpre Hpost Hfuel Hh Hc. unfold descend.
  destruct (for_down_inv
    (fun k n =>
       exists q1 q2, pre = q1 ++ q2 /\ n = c_addr (cursor c q1) /\
         Forall (low k) q2 /\ k <= c_height (cursor c q1))
    (fun i n => advance (length h) h i x n)
    (Z.to_nat lvl) (c_addr c)) as (n & Hrun & HP).
  - exists [], pre. repeat split; simpl; try done.
    rewrite Heq in Hh. apply Forall_app in Hh as [Hh _].
    eapply Forall_impl; [exact Hh|]. intros t Ht. simpl in Ht. unfold low. lia.
  - intros i n Hi (q1 & q2 & Hq & -> & Hq2 & Hk).
    destruct (advance_level h c l i x pre post q1 q2)
      as (u & Hu & (q1' & q2' & Hq' & -> & Hq2') & ->); [done..|lia|done|].
    eexists. split; [done|]. exists q1', q2'. repeat split; [done..|].
    destruct Hu as (_ & _ & _ & _ & _ & Hu). lia.
  - destruct HP as (q1 & q2 & Hq & -> & Hq2 & _). rewrite Hrun.
    assert (q2 = []) as ->.
    { destruct q2 as [|t q2]; [done|]. apply Forall_cons in Hq2 as [Ht _].
      rewrite Heq, Hq in Hh. apply Forall_app in Hh as [Hh _].
      apply Forall_app in Hh as [_ Hh]. apply Forall_cons in Hh as [Ht' _].
      unfold low in Ht. lia. }
    rewrite app_nil_r in Hq. by subst q1.
Qed.

(** ** Facts that follow from the representation *)

Lemma linked_at_addr_lt h c l i a :
  linked_at h c l i -> a ∈ c_addr c :: map t_addr l -> a < length h.
Proof.
  intros Hl [->|Ha]%elem_of_cons.
  - destruct (Hl [] l eq_refl) as (nd & Hnd & _). by eapply lookup_lt_Some.
  - apply list_elem_of_fmap in Ha as (t & -> & Ht).
    apply list_elem_of_split in Ht as (p & r & ->).
    destruct (linked_at_tower h c _ i p t r Hl eq_refl) as (nd & Hnd & _).
    by eapply lookup_lt_Some.
Qed.

Lemma rep_fuel sl l : rep sl l -> length l < length (sl_heap sl).
Proof.
  intros Hrep.
  assert (sl_head sl :: map t_addr l ⊆+ seq 0 (length (sl_heap sl))) as Hsub.
  { apply NoDup_submseteq; [apply Hrep|]. intros a Ha.
    apply elem_of_seq. split; [lia|]. simpl.
    eapply (linked_at_addr_lt _ (head_cell sl) l 0); [apply Hrep | done]. }
  apply submseteq_length in Hsub. simpl in Hsub.
  rewrite length_map, length_seq in Hsub. lia.
Qed.

Lemma rep_heights_nat sl l :
  rep sl l -> Forall (fun t => 1 <= t_height t <= Z.to_nat (sl_level sl)) l.
Proof.
  intros Hrep. eapply Forall_impl; [apply Hrep|]. simpl. intros t Ht. lia.
Qed.

Lemma resetBuf_spec sl :
  length (sl_buf sl) = Z.to_nat (sl_maxLevel sl) ->
  exists b, resetBuf sl = Ret b /\ length b = Z.to_nat (sl_maxLevel sl).
Proof.
  intros Hlen. unfold resetBuf.
  destruct (for_up_inv (fun _ b => length b = Z.to_nat (sl_maxLevel sl))
    (fun i b => store_at b i None) (Z.to_nat (sl_maxLevel sl)) 0 (sl_buf sl))
    as (b & Hb & Hlenb); [done| |by exists b].
  intros i b Hi Hb. unfold store_at. case_decide; [|lia].
  eexists. split; [done|]. by rewrite length_insert.
Qed.

Lemma randLevel_loop_ge draws : forall k lvl rest,
  randLevel_loop draws k = Ret (lvl, rest) -> (k <= lvl)%Z.
Proof.
  induction draws as [|r draws IH]; intros k lvl rest; simpl; [done|].
  case_match.
  - intros Hr%IH. lia.
  - intros [= <- _]. lia.
Qed.

Lemma randLevel_range sl lvl rest :
  (1 <= sl_maxLevel sl)%Z -> randLevel sl = Ret (lvl, rest) ->
  (1 <= lvl <= sl_maxLevel sl)%Z.
Proof.
  intros Hmx. unfold randLevel.
  intros ([l r] & Hloop & Hif)%bind_Ret. apply randLevel_loop_ge in Hloop.
  destruct (l <? sl_maxLevel sl)%Z eqn:E; injection Hif as <- <-; lia.
Qed.

Lemma randLevel_loop_total draws : forall k,
  0 < trials draws ->
  exists lvl rest, randLevel_loop draws k = Ret (lvl, rest) /\
                   trials rest = trials draws - 1.
Proof.
  unfold trials.
  induction draws as [|r draws IH]; intros k; simpl; [lia|].
  rewrite filter_cons. destruct (Z.land r 65535 <? FactorP_threshold)%Z eqn:E.
  - case_decide; [lia|]. apply IH.
  - case_decide; [|lia]. intros _. exists k, draws. split; [done|]. simpl. lia.
Qed.

Lemma randLevel_total sl :
  0 < trials (sl_rand sl) ->
  exists lvl rest, randLevel sl = Ret (lvl, rest) /\
                   trials rest = trials (sl_rand sl) - 1.
Proof.
  intros (l & rest & Hl & Ht)%(randLevel_loop_total _ 1%Z).
  unfold randLevel. rewrite Hl. simpl. case_match; eauto.
Qed.

(** ** Put *)

Lemma cell_ok_alloc h nd c i v : cell_ok h c i v -> cell_ok (h ++ [nd]) c i v.
Proof.
  intros (nd' & Hnd' & H). exists nd'. split; [|done].
  by apply lookup_app_l_Some.
Qed.

Lemma setFwd_preserves h a k v h' b nd :
  setFwd h (Some a) k v = Ret h' -> h !! b = Some nd ->
  exists nd', h' !! b = Some nd' /\ item nd' = item nd /\
              length (forwards nd') = length (forwards nd).
Proof.
  intros (nd0 & Hnd0 & Hk & ->)%setFwd_Ret Hb.
  destruct (decide (a = b)) as [->|Hne].
  - assert (nd0 = nd) as -> by congruence. eexists.
    split; [apply list_lookup_insert_eq; by eapply lookup_lt_Some|].
    simpl. by rewrite length_insert.
  - exists nd. by rewrite list_lookup_insert_ne.
Qed.

Lemma node_cell_ok h t nd i :
  h !! t_addr t = Some nd -> item nd = Some (t_item t) ->
  t_height t <= length (forwards nd) ->
  exists w, cell_ok h (cell_of t) i w.
Proof.
  intros Hnd Hit Hlen. destruct (forwards nd !! i) as [w|] eqn:E.
  - exists w, nd. by repeat split.
  - exists None, nd. repeat split; [done..|]. simpl. intros Hi.
    apply lookup_ge_None in E. lia.
Qed.

Lemma first_at_elem_high i l t :
  t ∈ l -> i < t_height t -> first_at i l <> None.
Proof.
  intros Ht Hi Hnone. apply first_at_None in Hnone.
  rewrite Forall_forall in Hnone. specialize (Hnone t Ht). unfold low in Hnone. lia.
Qed.

Lemma NoDup_insert_fresh c pre post t :
  NoDup (c_addr c :: map t_addr (pre ++ post)) ->
  t_addr t ∉ c_addr c :: map t_addr (pre ++ post) ->
  NoDup (c_addr c :: map t_addr (pre ++ t :: post)).
Proof.
  intros Hnd Hfresh.
  assert (c_addr c :: map t_addr (pre ++ t :: post)
            ≡ₚ t_addr t :: c_addr c :: map t_addr (pre ++ post)) as ->.
  { rewrite !map_app. simpl. rewrite Permutation_swap. f_equiv.
    symmetry. apply Permutation_middle. }
  by apply NoDup_cons.
Qed.

Lemma Put_link h c pre post x H upd :
  (forall i, linked_at h c (pre ++ post) i) ->
  NoDup (c_addr c :: map t_addr (pre ++ post)) ->
  (forall j, j < H ->
     exists u, upd !! j = Some (Some (c_addr u)) /\ pred_at c pre j u) ->
  exists h2,
    for_up H 0
      (fun i h0 =>
         let* u := index upd i in
         let* v := getFwd h0 u i in
         let* h0 := setFwd h0 (Some (length h)) i v in
         setFwd h0 u i (Some (length h)))
      (h ++ [mkNode (Some x) (replicate H None)]) = Ret h2 /\
    length h2 = S (length h) /\
    NoDup (c_addr c :: map t_addr (pre ++ mkTower (length h) x H :: post)) /\
    (forall i, linked_at h2 c (pre ++ mkTower (length h) x H :: post) i).
Proof.
  intros Hl Hnd Hupd.
  set (T := mkTower (length h) x H).
  assert (NoDup (c_addr c :: map t_addr (pre ++ T :: post))) as Hnd'.
  { apply NoDup_insert_fresh; [done|]. intros Hin.
    apply (linked_at_addr_lt h c _ 0 _ (Hl 0)) in Hin. simpl in Hin. lia. }
  destruct (for_up_inv
    (fun k hk =>
       length hk = S (length h) /\
       (exists nd, hk !! length h = Some nd /\ item nd = Some x /\
                   length (forwards nd) = H) /\
       (forall i, i < k -> linked_at hk c (pre ++ T :: post) i) /\
       (forall i, k <= i -> linked_at hk c (pre ++ post) i))
    (fun i h0 =>
       let* u := index upd i in
       let* v := getFwd h0 u i in
       let* h0 := setFwd h0 (Some (length h)) i v in
       setFwd h0 u i (Some (length h)))
    H 0 (h ++ [mkNode (Some x) (replicate H None)]))
    as (h2 & Hrun & Hlen & (nd & Hnd2 & Hit & Hfs) & Hlow & Hhigh).
  - repeat split.
    + rewrite length_app. simpl. lia.
    + eexists. split; [apply list_lookup_middle; done|].
      simpl. by rewrite length_replicate.
    + intros i Hi. lia.
    + intros i _ p r Hpr. apply cell_ok_alloc. by apply Hl.
  - intros k hk Hk (Hlen & (nd & Hnd1 & Hit & Hfs) & Hlow & Hhigh).
    destruct (Hupd k) as (u & Hu & Hpred); [lia|].
    pose proof Hpred as (q1 & q2 & Hpre & Hq1 & Hq2 & Hku).
    unfold index. rewrite Hu. simpl.
    assert (cell_ok hk u k (first_at k post)) as Hcu.
    { rewrite <- (first_at_app_low k q2 post Hq2). rewrite Hq1.
      apply Hhigh; [lia|]. rewrite Hpre. by rewrite <- app_assoc. }
    rewrite (cell_ok_getFwd _ _ _ _ Hcu Hku). simpl.
    destruct (node_cell_ok hk T nd k) as (w & HcT); [done|done|simpl; lia|].
    destruct (setFwd_total hk (cell_of T) k w (first_at k post) HcT)
      as (h1 & Hset1); [simpl; lia|].
    simpl in Hset1. rewrite Hset1. simpl.
    assert (exists w', cell_ok h1 u k w') as (w' & Hcu1).
    { destruct Hcu as (ndu & Hndu & Hitu & Hlenu & _).
      destruct (setFwd_preserves _ _ _ _ _ _ _ Hset1 Hndu) as (ndu' & ? & ? & ?).
      destruct (forwards ndu' !! k) as [w'|] eqn:E.
      - exists w', ndu'. repeat split; [done|congruence|lia|done].
      - apply lookup_ge_None in E. lia. }
    destruct (setFwd_total h1 u k w' (Some (length h)) Hcu1 Hku) as (h2 & Hset2).
    exists h2. split; [done|]. repeat split.
    + rewrite (setFwd_length _ _ _ _ _ Hset2), (setFwd_length _ _ _ _ _ Hset1). done.
    + destruct (setFwd_preserves _ _ _ _ _ _ _ Hset1 Hnd1) as (nd1 & Hnd1' & ? & ?).
      destruct (setFwd_preserves _ _ _ _ _ _ _ Hset2 Hnd1') as (nd2 & ? & ? & ?).
      exists nd2. repeat split; [done|congruence|congruence].
    + intros i Hi. destruct (decide (i = k)) as [->|Hne].
      * eapply (linked_at_splice_in hk c pre T post k u w h1 h2); try done.
        -- apply Hhigh. lia.
        -- simpl. lia.
      * eapply linked_at_set_other_level; [exact Hset2|done|].
        eapply linked_at_set_other_level; [exact Hset1|done|].
        apply Hlow. lia.
    + intros i Hi.
      eapply linked_at_set_other_level; [exact Hset2|lia|].
      eapply linked_at_set_other_level; [exact Hset1|lia|].
      apply Hhigh. lia.
  - exists h2. repeat split; [done..|]. intros i.
    destruct (decide (i < H)) as [Hi|Hi]; [by apply Hlow|].
    destruct (node_cell_ok h2 T nd i) as (w & HcT); [done|done|simpl; lia|].
    eapply linked_at_insert_low; [apply Hhigh; lia | unfold low; simpl; lia | done].
Qed.

Lemma Less_asym a b : Less a b = true -> Less b a = false.
Proof.
  intros Hab. destruct (Less b a) eqn:E; [|done].
  by rewrite <- (Less_irrefl a), (Less_trans a b a).
Qed.

Lemma sorted_insert pre post t :
  sorted_towers (pre ++ post) ->
  Forall (below (t_item t)) pre -> Forall (not_below (t_item t)) post ->
  sorted_towers (pre ++ t :: post).
Proof.
  unfold sorted_towers. rewrite !StronglySorted_app.
  intros (Hcross & Hpre & Hpost) Hb Hnb. split; [|split; [done|]].
  - intros a b Ha [->|Hb']%elem_of_cons; [|by apply Hcross].
    rewrite Forall_forall in Hb. by apply Less_asym, Hb.
  - by constructor.
Qed.

Lemma Put_fill (c : cell) pre upd (L H : nat) :
  (forall j, j < L ->
     exists u, upd !! j = Some (Some (c_addr u)) /\ pred_at c pre j u) ->
  Forall (low L) pre -> H <= c_height c -> H <= length upd ->
  exists upd',
    for_up (H - L) L (fun i u => store_at u i (Some (c_addr c))) upd = Ret upd' /\
    length upd' = length upd /\
    (forall j, j < H \/ j < L ->
       exists u, upd' !! j = Some (Some (c_addr u)) /\ pred_at c pre j u).
Proof.
  intros Hupd Hlow Hc Hlen.
  destruct (for_up_inv
    (fun k u' => length u' = length upd /\
       (forall j, j < k \/ j < L ->
          exists u, u' !! j = Some (Some (c_addr u)) /\ pred_at c pre j u))
    (fun i u => store_at u i (Some (c_addr c))) (H - L) L upd)
    as (upd' & Hrun & Hlen' & Hupd').
  - split; [done|]. intros j Hj. apply Hupd. lia.
  - intros i u' Hi (Hlen' & Hu'). unfold store_at. case_decide; [|lia].
    eexists. split; [done|]. rewrite length_insert. split; [done|].
    intros j Hj. destruct (decide (j = i)) as [->|Hne].
    + exists c. split; [apply list_lookup_insert_eq; lia|].
      exists [], pre. repeat split; simpl; [|lia].
      eapply Forall_impl; [exact Hlow|]. unfold low. intros. lia.
    + rewrite list_lookup_insert_ne by done. apply Hu'. lia.
  - exists upd'. repeat split; [done..|]. intros j Hj. apply Hupd'. lia.
Qed.

Lemma Put_spec sl l x pre post lvl rest :
  rep sl l -> l = pre ++ post ->
  Forall (below x) pre -> Forall (not_below x) post ->
  randLevel sl = Ret (lvl, rest) ->
  exists sl',
    Put sl x = Ret sl' /\
    rep sl' (pre ++ mkTower (length (sl_heap sl)) x (Z.to_nat lvl) :: post) /\
    sl_rand sl' = rest /\ sl_length sl' = (sl_length sl + 1)%Z /\
    sl_maxLevel sl' = sl_maxLevel sl /\ sl_head sl' = sl_head sl /\
    sl_level sl' = Z.max (sl_level sl) lvl.
Proof.
  intros Hrep Heq Hpre Hpost Hrand.
  pose proof (rep_level _ _ Hrep) as Hlevel.
  pose proof (rep_maxLevel _ _ Hrep) as Hmx.
  pose proof (randLevel_range sl lvl rest ltac:(lia) Hrand) as Hlvl.
  destruct (resetBuf_spec sl (rep_buf _ _ Hrep)) as (b & Hb & Hlenb).
  destruct (descend_update_spec (sl_heap sl) (head_cell sl) l x pre post
              (sl_level sl) b) as (upd & Hdesc & Hlenu & Hupd & _);
    [apply Hrep|done..|by apply rep_fuel|by apply rep_heights_nat
    |simpl; lia|lia|].
  assert (Forall (low (Z.to_nat (sl_level sl))) pre) as Hlowpre.
  { pose proof (rep_heights_nat _ _ Hrep) as Hh. rewrite Heq in Hh.
    apply Forall_app in Hh as [Hh _]. eapply Forall_impl; [exact Hh|].
    intros t Ht. simpl in Ht. unfold low. lia. }
  destruct (Put_fill (head_cell sl) pre upd (Z.to_nat (sl_level sl)) (Z.to_nat lvl))
    as (upd' & Hfill & Hlenu' & Hupd'); [done..|simpl; lia|lia|].
  set (upd2 := if (lvl >? sl_level sl)%Z then upd' else upd).
  assert (length upd2 = Z.to_nat (sl_maxLevel sl) /\
          forall j, j < Z.to_nat lvl ->
            exists u, upd2 !! j = Some (Some (c_addr u)) /\
                      pred_at (head_cell sl) pre j u) as [Hlen2 Hupd2].
  { unfold upd2. destruct (lvl >? sl_level sl)%Z eqn:E.
    - split; [lia|]. intros j Hj. apply Hupd'. by left.
    - split; [lia|]. intros j Hj. apply Hupd. lia. }
  destruct (Put_link (sl_heap sl) (head_cell sl) pre post x (Z.to_nat lvl) upd2)
    as (h2 & Hlink & Hlenh & Hnd & Hlinked);
    [rewrite <- Heq; apply Hrep|rewrite <- Heq; apply Hrep|done|].
  exists {| sl_length := sl_length sl + 1; sl_level := Z.max (sl_level sl) lvl;
            sl_maxLevel := sl_maxLevel sl; sl_head := sl_head sl;
            sl_rand := rest; sl_buf := upd2; sl_heap := h2 |}.
  split.
  - unfold Put. rewrite Hb. simpl. simpl in Hdesc. rewrite Hdesc. simpl.
    rewrite Hrand. simpl. unfold upd2 in *.
    destruct (lvl >? sl_level sl)%Z eqn:E.
    + replace (Z.to_nat (lvl - sl_level sl))
        with (Z.to_nat lvl - Z.to_nat (sl_level sl)) by lia.
      simpl in Hfill. rewrite Hfill. simpl.
      unfold newNode. destruct (lvl <? 0)%Z eqn:E'; [lia|]. simpl.
      simpl in Hlink. rewrite Hlink. simpl. do 2 f_equal. lia.
    + simpl. unfold newNode. destruct (lvl <? 0)%Z eqn:E'; [lia|]. simpl.
      simpl in Hlink. rewrite Hlink. simpl. do 2 f_equal. lia.
  - simpl. repeat split; try done; simpl.
    + apply Forall_app. pose proof (rep_heights _ _ Hrep) as Hh.
      rewrite Heq in Hh. apply Forall_app in Hh as [Hh1 Hh2]. split.
      * eapply Forall_impl; [exact Hh1|]. simpl. intros. lia.
      * constructor; [simpl; lia|].
        eapply Forall_impl; [exact Hh2|]. simpl. intros. lia.
    + apply sorted_insert; [|done..]. rewrite <- Heq. apply Hrep.
    + rewrite (rep_length _ _ Hrep), Heq, !length_app. simpl. lia.
    + lia.
    + lia.
    + intros Htop. destruct (Z.max_spec (sl_level sl) lvl) as [[Hlt ->]|[Hge ->]].
      * eapply (first_at_elem_high _ _
                  (mkTower (length (sl_heap sl)) x (Z.to_nat lvl)));
          [|simpl; lia].
        apply elem_of_app. right. apply elem_of_cons. by left.
      * intros Hnone. apply (rep_top _ _ Hrep); [lia|].
        apply first_at_None. apply first_at_None in Hnone.
        rewrite Heq. apply Forall_app in Hnone as [H1 H2].
        apply Forall_cons in H2 as [_ H2]. by apply Forall_app.
    + lia.
Qed.

(** ** Delete *)

Lemma shrink_spec h c l : forall fuel lvl,
  (forall i, linked_at h c l i) ->
  Z.to_nat lvl < fuel -> (lvl <= Z.of_nat (c_height c))%Z ->
  Forall (fun t => (Z.of_nat (t_height t) <= lvl)%Z) l ->
  exists lvl',
    shrink fuel h (c_addr c) lvl = Ret lvl' /\
    (Z.min 1 lvl <= lvl' <= lvl)%Z /\
    Forall (fun t => (Z.of_nat (t_height t) <= lvl')%Z) l /\
    ((1 < lvl')%Z -> first_at (Z.to_nat (lvl' - 1)) l <> None).
Proof.
  induction fuel as [|fuel IH]; intros lvl Hl Hfuel Hc Hh; [lia|]. simpl.
  destruct (lvl >? 1)%Z eqn:E.
  - rewrite (cell_ok_getFwd h c _ (first_at (Z.to_nat (lvl - 1)) l));
      [|by apply (Hl _ [] l)|lia]. simpl.
    destruct (first_at (Z.to_nat (lvl - 1)) l) as [a|] eqn:Ef.
    + exists lvl. repeat split; [lia|lia|done|]. intros _. by rewrite Ef.
    + apply first_at_None in Ef.
      destruct (IH (lvl - 1)%Z) as (lvl' & -> & Hr & Hh' & Htop); [done|lia|lia| |].
      * eapply Forall_impl; [exact Ef|]. unfold low. intros. lia.
      * exists lvl'. repeat split; [lia|lia|done..].
  - exists lvl. repeat split; [lia|lia|done|lia].
Qed.

(** One round of the unlinking loops of [Delete] and [PopFirst]. *)
Lemma unlink_step h c pre t post k u :
  linked_at h c (pre ++ t :: post) k ->
  NoDup (c_addr c :: map t_addr (pre ++ t :: post)) ->
  pred_at c pre k u ->
  exists h',
    (let* v := getFwd h (Some (c_addr u)) k in
     if decide (v = Some (t_addr t)) then
       let* w := getFwd h (Some (t_addr t)) k in
       setFwd h (Some (c_addr u)) k w
     else Ret h) = Ret h' /\
    linked_at h' c (pre ++ post) k /\
    length h' = length h /\
    (forall i l', i <> k -> linked_at h c l' i -> linked_at h' c l' i).
Proof.
  intros Hl Hnd Hu. pose proof Hu as (q1 & q2 & Hpre & Hq1 & Hq2 & Hk).
  assert (cell_ok h u k (first_at k (t :: post))) as Hcu.
  { rewrite <- (first_at_app_low k q2 _ Hq2). rewrite Hq1.
    apply Hl. rewrite Hpre. by rewrite <- app_assoc. }
  rewrite (cell_ok_getFwd _ _ _ _ Hcu Hk). simpl.
  destruct (decide (k < t_height t)) as [Hhigh|Hlow].
  - rewrite first_at_cons_high in * by done.
    case_decide; [|done].
    pose proof (linked_at_tower h c _ k pre t post Hl eq_refl) as Hct.
    pose proof (cell_ok_getFwd _ _ _ _ Hct Hhigh) as Hg. simpl in Hg.
    rewrite Hg. simpl.
    destruct (setFwd_total h u k _ (first_at k post) Hcu Hk) as (h' & Hset).
    exists h'. split; [done|]. repeat split.
    + by eapply linked_at_splice_out.
    + by eapply setFwd_length.
    + intros i l' Hne. by eapply linked_at_set_other_level.
  - rewrite first_at_cons_low in * by (unfold low; lia).
    case_decide as Heq.
    + apply first_at_Some in Heq as (pp & t' & rr & -> & Ha & _).
      apply NoDup_cons in Hnd as [_ Hnd]. rewrite !map_app in Hnd.
      apply NoDup_app in Hnd as (_ & _ & Hnd). simpl in Hnd.
      apply NoDup_cons in Hnd as [Hnd _]. destruct Hnd.
      rewrite map_app. simpl. rewrite Ha. set_solver.
    + exists h. split; [done|]. repeat split; [|done].
      eapply linked_at_remove_low; [done | unfold low; lia].
Qed.

Lemma Delete_unlink h c pre t post L upd :
  (forall i, linked_at h c (pre ++ t :: post) i) ->
  NoDup (c_addr c :: map t_addr (pre ++ t :: post)) ->
  (forall j, j < L ->
     exists u, upd !! j = Some (Some (c_addr u)) /\ pred_at c pre j u) ->
  t_height t <= L ->
  exists h2,
    for_up L 0
      (fun i h0 =>
         let* u := index upd i in
         let* v := getFwd h0 u i in
         if decide (v = Some (t_addr t)) then
           let* w := getFwd h0 (Some (t_addr t)) i in setFwd h0 u i w
         else Ret h0) h = Ret h2 /\
    length h2 = length h /\
    (forall i, linked_at h2 c (pre ++ post) i).
Proof.
  intros Hl Hnd Hupd Ht.
  destruct (for_up_inv
    (fun k hk =>
       length hk = length h /\
       (forall i, i < k -> linked_at hk c (pre ++ post) i) /\
       (forall i, k <= i -> linked_at hk c (pre ++ t :: post) i))
    (fun i h0 =>
       let* u := index upd i in
       let* v := getFwd h0 u i in
       if decide (v = Some (t_addr t)) then
         let* w := getFwd h0 (Some (t_addr t)) i in setFwd h0 u i w
       else Ret h0) L 0 h) as (h2 & Hrun & Hlen & Hlow & Hhigh).
  - repeat split; [intros; lia | intros; apply Hl].
  - intros k hk Hk (Hlen & Hlow & Hhigh).
    destruct (Hupd k) as (u & Hu & Hpred); [lia|].
    unfold index. rewrite Hu. simpl.
    destruct (unlink_step hk c pre t post k u) as (h' & Hstep & Hlk & Hlen' & Hframe);
      [apply Hhigh; lia|done..|].
    exists h'. split; [done|]. repeat split; [lia| |].
    + intros i Hi. destruct (decide (i = k)) as [->|Hne]; [done|].
      apply Hframe; [done|]. apply Hlow. lia.
    + intros i Hi. apply Hframe; [lia|]. apply Hhigh. lia.
  - exists h2. repeat split; [done..|]. intros i.
    destruct (decide (i < L)) as [Hi|Hi]; [by apply Hlow|].
    eapply linked_at_remove_low; [apply Hhigh; lia | unfold low; lia].
Qed.

Lemma rep_with_buf sl l b :
  rep sl l -> length b = Z.to_nat (sl_maxLevel sl) -> rep (with_buf sl b) l.
Proof. intros [] Hb. by constructor. Qed.

Lemma cursor_height_pos c p :
  1 <= c_height c -> Forall (fun t => 1 <= t_height t) p ->
  1 <= c_height (cursor c p).
Proof.
  revert c. induction p as [|t p IH]; intros c Hc Hp; simpl; [done|].
  apply Forall_cons in Hp as [Ht Hp]. by apply IH.
Qed.

Lemma rep_cursor_pos sl l p r :
  rep sl l -> l = p ++ r -> 0 < c_height (cursor (head_cell sl) p).
Proof.
  intros Hrep ->. apply cursor_height_pos.
  - simpl. pose proof (rep_maxLevel _ _ Hrep). lia.
  - pose proof (rep_heights _ _ Hrep) as Hh. apply Forall_app in Hh as [Hh _].
    eapply Forall_impl; [exact Hh|]. simpl. intros. lia.
Qed.

Lemma NoDup_remove_mid (a : ptr) pre t post :
  NoDup (a :: map t_addr (pre ++ t :: post)) ->
  NoDup (a :: map t_addr (pre ++ post)).
Proof.
  assert (a :: map t_addr (pre ++ t :: post)
            ≡ₚ t_addr t :: a :: map t_addr (pre ++ post)) as ->.
  { rewrite !map_app. simpl. rewrite Permutation_swap. f_equiv.
    symmetry. apply Permutation_middle. }
  by intros [_ ?]%NoDup_cons.
Qed.

Lemma sorted_remove_mid pre t post :
  sorted_towers (pre ++ t :: post) -> sorted_towers (pre ++ post).
Proof.
  unfold sorted_towers. rewrite !StronglySorted_app, StronglySorted_cons.
  intros (Hcross & Hpre & _ & Hpost). repeat split; [|done..].
  intros a b Ha Hb. apply Hcross; [done|]. by apply elem_of_cons; right.
Qed.

(** The state before the unlinking loop of [Delete]: the descent has found
    the last cell below [x] and looks at the node after it. *)
Lemma Delete_search sl l x pre post :
  rep sl l -> l = pre ++ post ->
  Forall (below x) pre -> Forall (not_below x) post ->
  exists b upd,
    resetBuf sl = Ret b /\
    descend_update (sl_heap sl) (sl_level sl) x (sl_head sl) b
      = Ret (c_addr (cursor (head_cell sl) pre), upd) /\
    length upd = Z.to_nat (sl_maxLevel sl) /\
    (forall j, j < Z.to_nat (sl_level sl) ->
       exists u, upd !! j = Some (Some (c_addr u)) /\
                 pred_at (head_cell sl) pre j u) /\
    getFwd (sl_heap sl) (Some (c_addr (cursor (head_cell sl) pre))) 0
      = Ret (first_at 0 post).
Proof.
  intros Hrep Heq Hpre Hpost.
  pose proof (rep_level _ _ Hrep) as Hlevel.
  destruct (resetBuf_spec sl (rep_buf _ _ Hrep)) as (b & Hb & Hlenb).
  destruct (descend_update_spec (sl_heap sl) (head_cell sl) l x pre post
              (sl_level sl) b) as (upd & Hdesc & Hlenu & Hupd & _);
    [apply Hrep|done..|by apply rep_fuel|by apply rep_heights_nat
    |simpl; lia|lia|].
  exists b, upd. repeat split; [done|done|lia|done|].
  eapply cell_ok_getFwd; [by apply (rep_linked _ _ Hrep)|].
  by eapply rep_cursor_pos.
Qed.

Lemma Delete_absent sl l x pre post :
  rep sl l -> l = pre ++ post ->
  Forall (below x) pre -> Forall (not_below x) post ->
  match post with
  | [] => True
  | t :: _ => equal (t_item t) x = false
  end ->
  exists b, Delete sl x = Ret (with_buf sl b, None) /\
            length b = Z.to_nat (sl_maxLevel sl).
Proof.
  intros Hrep Heq Hpre Hpost Hne.
  destruct (Delete_search sl l x pre post) as (b & upd & Hb & Hdesc & Hlen & _ & Hget);
    [done..|].
  exists upd. split; [|done]. unfold Delete. rewrite Hb. simpl.
  rewrite Hdesc. simpl. rewrite Hget. simpl.
  destruct post as [|t post]; [done|].
  pose proof (rep_heights _ _ Hrep) as Hh. rewrite Heq in Hh.
  apply Forall_app in Hh as [_ Hh]. apply Forall_cons in Hh as [Ht _].
  rewrite first_at_cons_high by lia.
  destruct (cell_ok_deref (sl_heap sl) (cell_of t) 0 (first_at 0 post))
    as (nd & Hnd & Hit).
  { eapply linked_at_tower; [apply (rep_linked _ _ Hrep)|done]. }
  change (c_addr (cell_of t)) with (t_addr t) in Hnd. simpl in Hit.
  rewrite Hnd. simpl. rewrite Hit, Hne. done.
Qed.

Lemma Delete_found sl l x pre t post :
  rep sl l -> l = pre ++ t :: post ->
  Forall (below x) pre -> Forall (not_below x) (t :: post) ->
  equal (t_item t) x = true ->
  exists upd h2 lvl',
    let sl' := {| sl_length := sl_length sl - 1; sl_level := lvl';
                  sl_maxLevel := sl_maxLevel sl; sl_head := sl_head sl;
                  sl_rand := sl_rand sl; sl_buf := upd; sl_heap := h2 |} in
    Delete sl x = Ret (sl', Some (t_item t)) /\
    rep sl' (pre ++ post) /\
    (forall j, j < Z.to_nat (sl_level sl) ->
       exists u, upd !! j = Some (Some (c_addr u)) /\
                 pred_at (head_cell sl) pre j u) /\
    for_up (Z.to_nat (sl_level sl)) 0
      (fun i h0 =>
         let* u := index upd i in
         let* v := getFwd h0 u i in
         if decide (v = Some (t_addr t)) then
           let* w := getFwd h0 (Some (t_addr t)) i in setFwd h0 u i w
         else Ret h0) (sl_heap sl) = Ret h2 /\
    shrink (S (Z.to_nat (sl_level sl))) h2 (sl_head sl) (sl_level sl) = Ret lvl' /\
    (Z.min 1 (sl_level sl) <= lvl' <= sl_level sl)%Z.
Proof.
  intros Hrep Heq Hpre Hpost Hequal.
  pose proof (rep_level _ _ Hrep) as Hlevel.
  pose proof (rep_maxLevel _ _ Hrep) as Hmx.
  destruct (Delete_search sl l x pre (t :: post))
    as (b & upd & Hb & Hdesc & Hlen & Hupd & Hget); [done..|].
  pose proof (rep_heights _ _ Hrep) as Hh. rewrite Heq in Hh.
  pose proof Hh as Hh0.
  apply Forall_app in Hh as [Hh1 Hh]. apply Forall_cons in Hh as [Ht Hh2].
  rewrite first_at_cons_high in Hget by lia.
  destruct (cell_ok_deref (sl_heap sl) (cell_of t) 0 (first_at 0 post))
    as (nd & Hnd & Hit).
  { eapply linked_at_tower; [apply (rep_linked _ _ Hrep)|done]. }
  change (c_addr (cell_of t)) with (t_addr t) in Hnd. simpl in Hit.
  destruct (Delete_unlink (sl_heap sl) (head_cell sl) pre t post
              (Z.to_nat (sl_level sl)) upd) as (h2 & Hloop & Hlenh & Hlinked);
    [rewrite <- Heq; apply Hrep|rewrite <- Heq; apply Hrep|done|lia|].
  destruct (shrink_spec h2 (head_cell sl) (pre ++ post)
              (S (Z.to_nat (sl_level sl))) (sl_level sl))
    as (lvl' & Hshrink & Hrange & Hh' & Htop); [done|lia|simpl; lia| |].
  { apply Forall_app. split.
    - eapply Forall_impl; [exact Hh1|]. simpl. intros. lia.
    - eapply Forall_impl; [exact Hh2|]. simpl. intros. lia. }
  exists upd, h2, lvl'. cbn zeta.
  change (c_addr (head_cell sl)) with (sl_head sl) in *.
  split; [|split; [|done]].
  - unfold Delete. rewrite Hb. cbn [bind]. rewrite Hdesc. cbn [bind].
    rewrite Hget. cbn [bind]. rewrite Hnd. cbn [bind].
    rewrite Hit, Hequal. cbn [negb].
    rewrite Hloop. cbn [bind]. rewrite Hshrink. cbn [bind]. reflexivity.
  - simpl. repeat split; try done; simpl.
    + eapply NoDup_remove_mid. rewrite <- Heq. apply Hrep.
    + apply Forall_forall. intros t' Ht'.
      rewrite Forall_forall in Hh', Hh1, Hh2. split; [|by apply Hh'].
      apply elem_of_app in Ht' as [Ht'|Ht']; [by apply Hh1 | by apply Hh2].
    + eapply sorted_remove_mid. rewrite <- Heq. apply Hrep.
    + rewrite (rep_length _ _ Hrep), Heq, !length_app. simpl. lia.
    + lia.
    + lia.
    + intros ->. lia.
Qed.

(** ** PopFirst: the same unlinking as Delete, through the head alone *)

Lemma for_up_ext {St} (f g : nat -> St -> outcome St) n start s :
  (forall i s, start <= i < start + n -> f i s = g i s) ->
  for_up n start f s = for_up n start g s.
Proof.
  revert start s. induction n as [|n IH]; intros start s Hfg; simpl; [done|].
  rewrite Hfg by lia. destruct (g start s); simpl; [|done].
  apply IH. intros i s' Hi. apply Hfg. lia.
Qed.

Lemma unlink_head_step (h : list node) (hd n : ptr) ndh ndn a b a' b' i Fk :
  h !! hd = Some ndh -> h !! n = Some ndn -> hd <> n ->
  unlinked (forwards ndh) (forwards ndn) n a b Fk ->
  i < length (forwards ndh) ->
  (forwards ndh !! i = Some (Some n) -> i < length (forwards ndn)) ->
  ~ (a <= i < b) ->
  (forall j, a' <= j < b' <-> a <= j < b \/ j = i) ->
  exists Fk',
    unlink_head hd n i (<[hd := mkNode (item ndh) Fk]> h)
      = Ret (<[hd := mkNode (item ndh) Fk']> h) /\
    unlinked (forwards ndh) (forwards ndn) n a' b' Fk'.
Proof.
  intros Hhd Hn Hne [Hlen HFk] Hi HG Hnot Hab.
  pose proof (lookup_lt_Some _ _ _ Hhd) as Hlt.
  unfold unlink_head, getFwd, deref, index.
  rewrite list_lookup_insert_eq by done. cbn [bind forwards].
  rewrite HFk. case_decide as Hc; [tauto|].
  destruct (forwards ndh !! i) as [v|] eqn:Ev;
    [|apply lookup_ge_None in Ev; lia].
  cbn [bind]. case_decide as Hv.
  - subst v. rewrite list_lookup_insert_ne by done. rewrite Hn. cbn [bind].
    destruct (forwards ndn !! i) as [w|] eqn:Ew;
      [|apply lookup_ge_None in Ew; specialize (HG eq_refl); lia].
    unfold setFwd, deref, store_at.
    rewrite list_lookup_insert_eq by done. cbn [bind forwards item].
    case_decide; [|lia]. cbn [bind].
    rewrite list_insert_insert_eq. eexists. split; [done|].
    split; [by rewrite length_insert|]. intros j.
    destruct (decide (j = i)) as [->|Hji].
    + rewrite list_lookup_insert_eq by lia.
      case_decide as Hc'; [done|]. destruct Hc'. split; [apply Hab; by right|done].
    + rewrite list_lookup_insert_ne by done. rewrite HFk.
      repeat case_decide; try done; exfalso; rewrite Hab in *; intuition lia.
  - exists Fk. split; [done|]. split; [done|]. intros j. rewrite HFk.
    destruct (decide (j = i)) as [->|Hji].
    + repeat case_decide; try done; exfalso; intuition congruence.
    + repeat case_decide; try done; exfalso; rewrite Hab in *; intuition lia.
Qed.

Lemma unlinked_start (h : list node) (hd : ptr) ndh G n a :
  h !! hd = Some ndh ->
  h = <[hd := mkNode (item ndh) (forwards ndh)]> h /\
  unlinked (forwards ndh) G n a a (forwards ndh).
Proof.
  intros Hhd. split.
  - symmetry. apply list_insert_id. by destruct ndh.
  - split; [done|]. intros j. case_decide; [lia|done].
Qed.

Lemma unlinked_unique F G n a b F1 F2 :
  unlinked F G n a b F1 -> unlinked F G n a b F2 -> F1 = F2.
Proof.
  intros [_ H1] [_ H2]. apply list_eq. intros j. by rewrite H1, H2.
Qed.

(** Ascending (Delete) and descending (PopFirst) order give one store. *)
Lemma unlink_head_up_down (h : list node) (hd n : ptr) ndh ndn L :
  h !! hd = Some ndh -> h !! n = Some ndn -> hd <> n ->
  L <= length (forwards ndh) ->
  (forall i, i < L -> forwards ndh !! i = Some (Some n) ->
             i < length (forwards ndn)) ->
  exists h', for_up L 0 (unlink_head hd n) h = Ret h' /\
             for_down L (unlink_head hd n) h = Ret h' /\
             h' !! n = Some ndn.
Proof.
  intros Hhd Hn Hne HL HG.
  destruct (unlinked_start h hd ndh (forwards ndn) n 0 Hhd) as [Hh0 Hu0].
  destruct (unlinked_start h hd ndh (forwards ndn) n L Hhd) as [_ HuL].
  destruct (for_up_inv
    (fun k hk => exists Fk, hk = <[hd := mkNode (item ndh) Fk]> h /\
                   unlinked (forwards ndh) (forwards ndn) n 0 k Fk)
    (unlink_head hd n) L 0 h) as (h1 & Hup & F1 & -> & HF1).
  { by exists (forwards ndh). }
  { intros i hk Hi (Fk & -> & HFk).
    destruct (unlink_head_step h hd n ndh ndn 0 i 0 (S i) i Fk)
      as (Fk' & -> & HFk'); [done..|lia|apply HG; lia|lia|lia|]. eauto. }
  destruct (for_down_inv
    (fun k hk => exists Fk, hk = <[hd := mkNode (item ndh) Fk]> h /\
                   unlinked (forwards ndh) (forwards ndn) n k L Fk)
    (unlink_head hd n) L h) as (h2 & Hdown & F2 & -> & HF2).
  { by exists (forwards ndh). }
  { intros i hk Hi (Fk & -> & HFk).
    destruct (unlink_head_step h hd n ndh ndn (S i) L i L i Fk)
      as (Fk' & -> & HFk'); [done..|lia|apply HG; lia|lia|lia|]. eauto. }
  simpl in HF1. rewrite (unlinked_unique _ _ _ _ _ _ _ HF2 HF1) in Hdown.
  eexists. repeat split; [done..|]. by rewrite list_lookup_insert_ne.
Qed.

Lemma first_at_self i t post :
  NoDup (map t_addr (t :: post)) ->
  first_at i (t :: post) = Some (t_addr t) -> i < t_height t.
Proof.
  intros Hnd Hf. destruct (decide (i < t_height t)) as [|Hlow]; [done|].
  rewrite first_at_cons_low in Hf by (unfold low; lia).
  apply first_at_Some in Hf as (pp & t' & rr & -> & Ha & _).
  simpl in Hnd. apply NoDup_cons in Hnd as [Hnd _]. destruct Hnd.
  rewrite map_app. simpl. rewrite Ha. set_solver.
Qed.

Lemma sorted_first_min t post :
  sorted_towers (t :: post) ->
  Forall (not_below (t_item t)) (t :: post) /\ equal (t_item t) (t_item t) = true.
Proof.
  intros [Hall _]%StronglySorted_cons. split.
  - constructor; [apply Less_irrefl | done].
  - unfold equal. by rewrite Less_irrefl.
Qed.

Lemma rep_first sl t post :
  rep sl (t :: post) ->
  (sl_length sl =? 0)%Z = false /\
  getFwd (sl_heap sl) (Some (sl_head sl)) 0 = Ret (Some (t_addr t)) /\
  exists nd, sl_heap sl !! t_addr t = Some nd /\ item nd = Some (t_item t) /\
             t_height t <= length (forwards nd).
Proof.
  intros Hrep. pose proof (rep_heights _ _ Hrep) as Hh.
  apply Forall_cons in Hh as [Ht _]. repeat split.
  - rewrite (rep_length _ _ Hrep). simpl. lia.
  - rewrite (cell_ok_getFwd _ (head_cell sl) 0 (first_at 0 (t :: post))).
    + by rewrite first_at_cons_high by lia.
    + by apply (rep_linked _ _ Hrep 0 []).
    + simpl. pose proof (rep_maxLevel _ _ Hrep). lia.
  - destruct (linked_at_tower _ _ _ 0 [] t post (rep_linked _ _ Hrep 0) eq_refl)
      as (nd & Hnd & Hit & Hlen & _). by exists nd.
Qed.

(** [PopFirst] on a non-empty list is [Delete] of the first item, up to the
    scratch buffer that only [Delete] writes. *)
Lemma PopFirst_spec sl t post :
  rep sl (t :: post) ->
  exists sl',
    Delete sl (t_item t) = Ret (sl', Some (t_item t)) /\
    PopFirst sl = Ret (with_buf sl' (sl_buf sl), Some (t_item t)) /\
    rep sl' post /\ sl_length sl' = (sl_length sl - 1)%Z /\
    sl_rand sl' = sl_rand sl /\ sl_maxLevel sl' = sl_maxLevel sl /\
    sl_head sl' = sl_head sl /\
    (Z.min 1 (sl_level sl) <= sl_level sl' <= sl_level sl)%Z.
Proof.
  intros Hrep.
  destruct (sorted_first_min t post (rep_sorted _ _ Hrep)) as [Hnb Heq].
  destruct (Delete_found sl (t :: post) (t_item t) [] t post)
    as (upd & h2 & lvl' & Hdel & Hrep' & Hupd & Hloop & Hshrink & Hrange);
    [done|done|constructor|done|done|]. cbn zeta in *. simpl in Hrep'.
  eexists. split; [exact Hdel|].
  split; [|split; [exact Hrep' | repeat split; simpl; (done || lia)]].
  destruct (rep_first _ _ _ Hrep) as (Hlen & Hget & ndn & Hn & Hit & Hlenn).
  destruct (rep_linked _ _ Hrep 0 [] (t :: post) eq_refl)
    as (ndh & Hhd & _ & Hlenh & _). simpl in Hhd, Hlenh.
  pose proof (rep_level _ _ Hrep) as Hlevel.
  assert (sl_head sl <> t_addr t) as Hne.
  { pose proof (rep_nodup _ _ Hrep) as Hnd. simpl in Hnd.
    apply NoDup_cons in Hnd as [Hnd _]. intros Heq'. apply Hnd.
    rewrite Heq'. by apply elem_of_cons; left. }
  destruct (unlink_head_up_down (sl_heap sl) (sl_head sl) (t_addr t) ndh ndn
              (Z.to_nat (sl_level sl))) as (h' & Hup & Hdown & Hn');
    [done|done|done|lia| |].
  { intros i Hi Hf.
    destruct (rep_linked _ _ Hrep i [] (t :: post) eq_refl)
      as (ndh' & Hhd' & _ & _ & Hv). simpl in Hhd', Hv.
    assert (ndh' = ndh) as -> by congruence.
    rewrite Hv in Hf by lia. injection Hf as Hf.
    apply first_at_self in Hf; [lia|].
    pose proof (rep_nodup _ _ Hrep) as Hnd. by apply NoDup_cons in Hnd as [_ ?]. }
  assert (h2 = h') as ->.
  { rewrite (for_up_ext _ (unlink_head (sl_head sl) (t_addr t))) in Hloop.
    - congruence.
    - intros i h0 Hi. destruct (Hupd i) as (u & Hu & (q1 & q2 & Hq & -> & _)); [lia|].
      symmetry in Hq. apply app_eq_nil in Hq as [-> ->].
      unfold index. rewrite Hu. done. }
  unfold PopFirst. rewrite Hlen, Hget. cbn [bind].
  unfold unlink_head in Hdown. rewrite Hdown. cbn [bind].
  rewrite Hshrink. cbn [bind]. unfold deref. rewrite Hn'. cbn [bind].
  by rewrite Hit.
Qed.

Lemma PopFirst_empty sl : rep sl [] -> PopFirst sl = Ret (sl, None).
Proof.
  intros Hrep. unfold PopFirst. by rewrite (rep_length _ _ Hrep).
Qed.

Lemma First_spec sl l :
  rep sl l -> First sl = Ret (t_item <$> head l).
Proof.
  intros Hrep. unfold First. destruct l as [|t post].
  - by rewrite (rep_length _ _ Hrep).
  - destruct (rep_first _ _ _ Hrep) as (Hlen & Hget & nd & Hn & Hit & _).
    rewrite Hlen, Hget. cbn [bind]. unfold deref. rewrite Hn. cbn [bind].
    by rewrite Hit.
Qed.

Lemma Get_spec sl l x pre post :
  rep sl l -> l = pre ++ post ->
  Forall (below x) pre -> Forall (not_below x) post ->
  Get sl x = Ret (match post with
                  | t :: _ => if equal (t_item t) x then Some (t_item t) else None
                  | [] => None
                  end).
Proof.
  intros Hrep Heq Hpre Hpost.
  pose proof (rep_level _ _ Hrep) as Hlevel.
  unfold Get. change (sl_head sl) with (c_addr (head_cell sl)).
  rewrite (descend_spec (sl_heap sl) (head_cell sl) l x pre post (sl_level sl));
    [|apply Hrep|done..|by apply rep_fuel|by apply rep_heights_nat|simpl; lia].
  cbn [bind].
  rewrite (cell_ok_getFwd _ _ 0 (first_at 0 post));
    [|by apply (rep_linked _ _ Hrep)|by eapply rep_cursor_pos].
  cbn [bind]. destruct post as [|t post]; [done|].
  pose proof (rep_heights _ _ Hrep) as Hh. rewrite Heq in Hh.
  apply Forall_app in Hh as [_ Hh]. apply Forall_cons in Hh as [Ht _].
  rewrite first_at_cons_high by lia.
  destruct (cell_ok_deref (sl_heap sl) (cell_of t) 0 (first_at 0 post))
    as (nd & Hnd & Hit).
  { eapply linked_at_tower; [apply (rep_linked _ _ Hrep)|done]. }
  change (c_addr (cell_of t)) with (t_addr t) in Hnd. simpl in Hit.
  rewrite Hnd. cbn [bind]. rewrite Hit. by destruct (equal (t_item t) x).
Qed.

Lemma NewWithRandSeed_rep maxLevel seed sl :
  NewWithRandSeed maxLevel seed = Ret sl ->
  rep sl [] /\ sl_rand sl = randSource seed /\ sl_maxLevel sl = maxLevel.
Proof.
  unfold NewWithRandSeed, newNode. destruct (maxLevel <? 2)%Z eqn:E; [done|].
  destruct (maxLevel <? 0)%Z eqn:E'; [lia|]. simpl. intros [= <-].
  repeat split; simpl; try done; try lia.
  - intros i p r Hpr. symmetry in Hpr. apply app_eq_nil in Hpr as [-> ->].
    exists (mkNode None (replicate (Z.to_nat maxLevel) None)). simpl.
    split; [done|]. split; [done|]. split; [by rewrite length_replicate|].
    intros Hi. by apply lookup_replicate_2.
  - apply NoDup_singleton.
  - constructor.
  - by rewrite length_replicate.
Qed.

(** ** Equal items *)

Lemma equal_sym a b : equal a b = equal b a.
Proof. unfold equal. apply andb_comm. Qed.

Lemma equal_true a b : equal a b = true <-> Less a b = false /\ Less b a = false.
Proof.
  unfold equal. rewrite andb_true_iff, !negb_true_iff. done.
Qed.

Lemma equal_trans a b c : equal a b = true -> equal b c = true -> equal a c = true.
Proof.
  rewrite !equal_true. intros [H1 H2] [H3 H4]. split.
  - by apply (Less_negtrans a b c).
  - by apply (Less_negtrans c b a).
Qed.

(** If some stored item equals [x], the first tower not below [x] does. *)
Lemma equal_head x pre post t0 :
  sorted_towers (pre ++ post) ->
  Forall (below x) pre -> Forall (not_below x) post ->
  t0 ∈ pre ++ post -> equal (t_item t0) x = true ->
  exists t post', post = t :: post' /\ equal (t_item t) x = true.
Proof.
  intros Hs Hpre Hpost Hin Heq. apply equal_true in Heq as [Hlt Hgt].
  apply elem_of_app in Hin as [Hin|Hin].
  { rewrite Forall_forall in Hpre. specialize (Hpre _ Hin). unfold below in Hpre.
    congruence. }
  destruct post as [|t post']; [by apply elem_of_nil in Hin|].
  exists t, post'. split; [done|]. apply equal_true.
  apply Forall_cons in Hpost as [Ht _]. split; [done|].
  apply elem_of_cons in Hin as [->|Hin]; [done|].
  apply (Less_negtrans x (t_item t0) (t_item t)); [done|].
  apply StronglySorted_app_1_r in Hs. apply StronglySorted_cons in Hs as [Hall _].
  rewrite Forall_forall in Hall. by apply Hall.
Qed.

Lemma not_equal_head x pre post :
  sorted_towers (pre ++ post) ->
  Forall (below x) pre -> Forall (not_below x) post ->
  match post with
  | [] => True
  | t :: _ => equal (t_item t) x = false
  end ->
  Forall (fun t => equal (t_item t) x = false) (pre ++ post).
Proof.
  intros Hs Hpre Hpost Hhd. apply Forall_forall. intros t0 Hin.
  destruct (equal (t_item t0) x) eqn:E; [|done].
  destruct (equal_head x pre post t0) as (t & post' & -> & Heq); [done..|].
  congruence.
Qed.

Lemma Delete_cases sl l x :
  rep sl l ->
  (exists b, Delete sl x = Ret (with_buf sl b, None) /\
             length b = Z.to_nat (sl_maxLevel sl) /\
             Forall (fun t => equal (t_item t) x = false) l) \/
  (exists pre t post sl',
      l = pre ++ t :: post /\ equal (t_item t) x = true /\
      Delete sl x = Ret (sl', Some (t_item t)) /\ rep sl' (pre ++ post) /\
      sl_length sl' = (sl_length sl - 1)%Z /\ sl_rand sl' = sl_rand sl /\
      sl_maxLevel sl' = sl_maxLevel sl /\
      (Z.min 1 (sl_level sl) <= sl_level sl' <= sl_level sl)%Z).
Proof.
  intros Hrep.
  destruct (sorted_split l x (rep_sorted _ _ Hrep)) as (pre & post & Heq & Hpre & Hpost).
  assert (match post with
          | [] => True
          | t :: _ => equal (t_item t) x = false
          end \/ exists t post', post = t :: post' /\ equal (t_item t) x = true)
    as [Habs|(t & post' & -> & Ht)].
  { destruct post as [|t post']; [by left|].
    destruct (equal (t_item t) x) eqn:E; [right; eauto | by left]. }
  - left. destruct (Delete_absent sl l x pre post) as (b & Hdel & Hb); [done..|].
    exists b. repeat split; [done..|]. rewrite Heq.
    apply not_equal_head; [|done..]. rewrite <- Heq. apply Hrep.
  - right.
    destruct (Delete_found sl l x pre t post')
      as (upd & h2 & lvl' & Hdel & Hrep' & _ & _ & _ & Hrange); [done..|].
    cbn zeta in *. exists pre, t, post'. eexists.
    split; [done|]. split; [done|]. split; [exact Hdel|].
    split; [exact Hrep'|]. repeat split; simpl; (done || lia).
Qed.

Lemma Get_cases sl l x :
  rep sl l ->
  (Get sl x = Ret None /\ Forall (fun t => equal (t_item t) x = false) l) \/
  (exists t, t ∈ l /\ equal (t_item t) x = true /\
             Get sl x = Ret (Some (t_item t))).
Proof.
  intros Hrep.
  destruct (sorted_split l x (rep_sorted _ _ Hrep)) as (pre & post & Heq & Hpre & Hpost).
  rewrite (Get_spec sl l x pre post) by done.
  destruct post as [|t post'].
  - left. split; [done|]. rewrite Heq.
    apply not_equal_head; [|done..]. rewrite <- Heq. apply Hrep.
  - destruct (equal (t_item t) x) eqn:E.
    + right. exists t. repeat split; [|done]. rewrite Heq. set_solver.
    + left. split; [done|]. rewrite Heq.
      apply not_equal_head; [|done..]. rewrite <- Heq. apply Hrep.
Qed.

(** ** Iteration *)

Lemma drain_spec sl l : forall r p fuel,
  rep sl l -> l = p ++ r -> length r < fuel ->
  drain fuel sl (mkIterator (Some (c_addr (cursor (head_cell sl) p))))
    = Ret (map (fun t => Some (t_item t)) r).
Proof.
  induction r as [|t r IH]; intros p fuel Hrep Heq Hfuel;
    (destruct fuel as [|fuel]; [simpl in Hfuel; lia|]); cbn [drain]; unfold Next;
    cbn [iter_n].
  - rewrite (cell_ok_getFwd _ _ 0 (first_at 0 []));
      [|by apply (rep_linked _ _ Hrep)|by eapply rep_cursor_pos]. done.
  - rewrite (cell_ok_getFwd _ _ 0 (first_at 0 (t :: r)));
      [|by apply (rep_linked _ _ Hrep)|by eapply rep_cursor_pos]. cbn [bind].
    pose proof (rep_heights _ _ Hrep) as Hh. rewrite Heq in Hh.
    apply Forall_app in Hh as [_ Hh]. apply Forall_cons in Hh as [Ht _].
    rewrite first_at_cons_high by lia.
    rewrite bool_decide_true by done.
    destruct (cell_ok_deref (sl_heap sl) (cell_of t) 0 (first_at 0 r))
      as (nd & Hnd & Hit).
    { eapply linked_at_tower; [apply (rep_linked _ _ Hrep)|done]. }
    unfold Item_. cbn [iter_n]. change (c_addr (cell_of t)) with (t_addr t) in Hnd.
    rewrite Hnd. cbn [bind]. simpl in Hit. rewrite Hit.
    specialize (IH (p ++ [t]) fuel Hrep). rewrite cursor_snoc in IH.
    simpl in IH. rewrite IH; [done| |simpl in Hfuel; lia].
    by rewrite <- app_assoc.
Qed.

Lemma iterate_nil_spec sl l :
  rep sl l -> iterate sl None = Ret (map (fun t => Some (t_item t)) l).
Proof.
  intros Hrep. unfold iterate, NewIterator. cbn [bind].
  apply (drain_spec sl l l []); [done..|].
  pose proof (rep_fuel _ _ Hrep). lia.
Qed.

Lemma iterate_start_spec sl l x pre post :
  rep sl l -> l = pre ++ post ->
  Forall (below x) pre -> Forall (not_below x) post ->
  iterate sl (Some x) = Ret (map (fun t => Some (t_item t)) post).
Proof.
  intros Hrep Heq Hpre Hpost.
  pose proof (rep_level _ _ Hrep) as Hlevel.
  unfold iterate, NewIterator. change (sl_head sl) with (c_addr (head_cell sl)).
  rewrite (descend_spec (sl_heap sl) (head_cell sl) l x pre post (sl_level sl));
    [|apply Hrep|done..|by apply rep_fuel|by apply rep_heights_nat|simpl; lia].
  cbn [bind]. apply (drain_spec sl l post pre); [done..|].
  pose proof (rep_fuel _ _ Hrep). rewrite Heq, length_app in *. lia.
Qed.

(** ** Reachable states *)

Lemma Put_randLevel sl x sl' :
  Put sl x = Ret sl' -> exists lvl rest, randLevel sl = Ret (lvl, rest).
Proof.
  unfold Put. intros (b & _ & H)%bind_Ret.
  apply bind_Ret in H as ([n upd] & _ & H).
  apply bind_Ret in H as ([lvl rest] & Hr & _). eauto.
Qed.

Lemma Put_rep sl l x lvl rest :
  rep sl l -> randLevel sl = Ret (lvl, rest) ->
  exists sl' l',
    Put sl x = Ret sl' /\ rep sl' l' /\ items l' ≡ₚ x :: items l /\
    sl_length sl' = (sl_length sl + 1)%Z /\ sl_rand sl' = rest /\
    (1 <= sl_level sl')%Z.
Proof.
  intros Hrep Hrand.
  destruct (sorted_split l x (rep_sorted _ _ Hrep)) as (pre & post & Heq & Hpre & Hpost).
  destruct (Put_spec sl l x pre post lvl rest)
    as (sl' & Hput & Hrep' & Hr & Hlen & _ & _ & Hlvl); [done..|].
  pose proof (rep_maxLevel _ _ Hrep). pose proof (rep_level _ _ Hrep).
  pose proof (randLevel_range sl lvl rest ltac:(lia) Hrand) as Hrange.
  exists sl'. eexists. split; [done|]. split; [exact Hrep'|].
  repeat split; [|done..|lia].
  unfold items. rewrite Heq, !map_app. simpl. symmetry. apply Permutation_middle.
Qed.

Lemma Clear_loop_rep : forall l fuel sl,
  rep sl l -> length l < fuel ->
  exists sl', Clear_loop fuel sl = Ret sl' /\ rep sl' [].
Proof.
  induction l as [|t post IH]; intros fuel sl Hrep Hfuel;
    (destruct fuel as [|fuel]; [simpl in Hfuel; lia|]); cbn [Clear_loop].
  - rewrite (PopFirst_empty sl Hrep). cbn [bind]. by exists sl.
  - destruct (PopFirst_spec sl t post Hrep)
      as (sl2 & _ & Hpop & Hrep' & _ & _ & Hmx & _).
    rewrite Hpop. cbn [bind].
    apply IH; [|simpl in Hfuel; lia].
    apply rep_with_buf; [done|]. rewrite Hmx. apply Hrep.
Qed.

Lemma Clear_rep sl l :
  rep sl l -> exists sl', Clear sl = Ret sl' /\ rep sl' [].
Proof.
  intros Hrep. apply (Clear_loop_rep l); [done|].
  pose proof (rep_fuel _ _ Hrep). lia.
Qed.

Lemma reach_rep sl bag :
  reach sl bag -> exists l, rep sl l /\ items l ≡ₚ bag.
Proof.
  induction 1 as [mx seed sl Hnew
                 |sl bag x sl' _ (l & Hrep & Hbag) Hput
                 |sl bag x sl' y bag' _ (l & Hrep & Hbag) Hdel Hperm
                 |sl bag x sl' _ (l & Hrep & Hbag) Hdel
                 |sl bag sl' y bag' _ (l & Hrep & Hbag) Hpop Hperm
                 |sl bag sl' _ (l & Hrep & Hbag) Hpop
                 |sl bag sl' _ (l & Hrep & Hbag) Hclear].
  - exists []. split; [by apply NewWithRandSeed_rep in Hnew as [? _]|done].
  - destruct (Put_randLevel _ _ _ Hput) as (lvl & rest & Hrand).
    destruct (Put_rep sl l x lvl rest) as (sl2 & l' & Hput' & Hrep' & Hit & _);
      [done..|].
    assert (sl2 = sl') as -> by congruence.
    exists l'. split; [done|]. by rewrite Hit, Hbag.
  - destruct (Delete_cases sl l x Hrep)
      as [(b & Hdel' & _)|(pre & t & post & sl2 & -> & _ & Hdel' & Hrep' & _)];
      [congruence|].
    assert (sl2 = sl') as -> by congruence.
    assert (y = t_item t) as -> by congruence.
    exists (pre ++ post). split; [done|].
    apply (Permutation_cons_inv (a := t_item t)).
    rewrite <- Hperm, <- Hbag. unfold items. rewrite !map_app. simpl.
    apply Permutation_middle.
  - destruct (Delete_cases sl l x Hrep)
      as [(b & Hdel' & Hb & _)|(pre & t & post & sl2 & -> & _ & Hdel' & _)];
      [|congruence].
    assert (sl' = with_buf sl b) as -> by congruence.
    exists l. split; [by apply rep_with_buf | done].
  - destruct l as [|t post].
    + rewrite (PopFirst_empty sl Hrep) in Hpop. congruence.
    + destruct (PopFirst_spec sl t post Hrep)
        as (sl2 & _ & Hpop' & Hrep' & _ & _ & Hmx & _).
      assert (sl' = with_buf sl2 (sl_buf sl)) as -> by congruence.
      assert (y = t_item t) as -> by congruence.
      exists post. split.
      * apply rep_with_buf; [done|]. rewrite Hmx. apply Hrep.
      * apply (Permutation_cons_inv (a := t_item t)). by rewrite <- Hperm, <- Hbag.
  - destruct l as [|t post].
    + rewrite (PopFirst_empty sl Hrep) in Hpop.
      assert (sl' = sl) as -> by congruence. eauto.
    + destruct (PopFirst_spec sl t post Hrep) as (sl2 & _ & Hpop' & _).
      congruence.
  - destruct (Clear_rep sl l Hrep) as (sl2 & Hclear' & Hrep').
    assert (sl' = sl2) as -> by congruence. by exists [].
Qed.

Lemma Clear_spec sl bag :
  reach sl bag ->
  exists sl', Clear sl = Ret sl' /\ reach sl' [] /\ sl_length sl' = 0%Z.
Proof.
  intros Hreach. destruct (reach_rep _ _ Hreach) as (l & Hrep & _).
  destruct (Clear_rep sl l Hrep) as (sl' & Hclear & Hrep').
  exists sl'. split; [done|]. split; [by eapply reach_clear|].
  by rewrite (rep_length _ _ Hrep').
Qed.


Lemma sorted_items l : sorted_towers l -> sorted (items l).
Proof.
  unfold sorted_towers, sorted, items. induction 1 as [|t l Hs IH Hall]; simpl.
  - constructor.
  - constructor; [done|]. apply Forall_forall. intros y Hy.
    apply list_elem_of_fmap in Hy as (t' & -> & Ht').
    rewrite Forall_forall in Hall. by apply Hall.
Qed.

Lemma iterate_items sl l :
  rep sl l -> iterate sl None = Ret (map Some (items l)).
Proof.
  intros Hrep. rewrite (iterate_nil_spec sl l Hrep). unfold items.
  by rewrite map_map.
Qed.

Lemma Put_reach sl bag x :
  reach sl bag -> 0 < trials (sl_rand sl) ->
  exists sl', Put sl x = Ret sl' /\ reach sl' (x :: bag) /\
              sl_length sl' = (sl_length sl + 1)%Z /\
              trials (sl_rand sl') = trials (sl_rand sl) - 1 /\
              (1 <= sl_level sl')%Z.
Proof.
  intros Hreach Htr. destruct (reach_rep _ _ Hreach) as (l & Hrep & _).
  destruct (randLevel_total sl Htr) as (lvl & rest & Hrand & Hrest).
  destruct (Put_rep sl l x lvl rest Hrep Hrand)
    as (sl' & l' & Hput & _ & _ & Hlen & Hr & Hlvl).
  exists sl'. repeat split; [done|by eapply reach_put|done|by rewrite Hr|done].
Qed.

Lemma PutAll_reach : forall xs sl bag,
  reach sl bag -> length xs <= trials (sl_rand sl) ->
  exists sl', PutAll sl xs = Ret sl' /\ reach sl' (rev xs ++ bag) /\
              sl_length sl' = (sl_length sl + Z.of_nat (length xs))%Z.
Proof.
  induction xs as [|x xs IH]; intros sl bag Hreach Htr; simpl in *.
  - exists sl. repeat split; [done|lia].
  - destruct (Put_reach sl bag x Hreach) as (sl1 & -> & Hreach1 & Hlen1 & Htr1 & _);
      [lia|]. cbn [bind].
    destruct (IH sl1 (x :: bag) Hreach1) as (sl' & -> & Hreach' & Hlen'); [lia|].
    exists sl'. repeat split; [|lia]. by rewrite <- app_assoc.
Qed.

Lemma reach_length sl bag :
  reach sl bag -> sl_length sl = Z.of_nat (length bag).
Proof.
  intros (l & Hrep & Hbag)%reach_rep. rewrite (rep_length _ _ Hrep).
  apply Permutation_length in Hbag. unfold items in Hbag.
  rewrite length_map in Hbag. lia.
Qed.

Lemma reach_PutAll : forall xs sl bag sl',
  reach sl bag -> PutAll sl xs = Ret sl' -> reach sl' (rev xs ++ bag).
Proof.
  induction xs as [|x xs IH]; intros sl bag sl' Hreach; simpl.
  - by intros [= <-].
  - intros (sl1 & Hput & Hall)%bind_Ret. rewrite <- app_assoc. simpl.
    eapply IH; [|done]. by eapply reach_put.
Qed.

Lemma reach_of_puts maxLevel seed sl0 xs sl :
  NewWithRandSeed maxLevel seed = Ret sl0 -> PutAll sl0 xs = Ret sl ->
  reach sl (rev xs).
Proof.
  intros Hnew Hall. rewrite <- (app_nil_r (rev xs)).
  eapply reach_PutAll; [|done]. by eapply reach_new.
Qed.

(** ** The properties of the specification *)

(** C1 (ordering invariant): after any sequence of Put calls on a freshly
    constructed skiplist, an iterator without start bound yields every
    inserted item, in non-decreasing order.  The random source has to supply
    one failed trial for each Put. *)
Theorem put_all_iterate_sorted maxLevel seed xs :
  (2 <= maxLevel)%Z -> length xs <= trials (randSource seed) ->
  exists sl0 sl out,
    NewWithRandSeed maxLevel seed = Ret sl0 /\ PutAll sl0 xs = Ret sl /\
    iterate sl None = Ret (map Some out) /\ out ≡ₚ xs /\ sorted out.
Proof.
  intros Hmx Htr.
  destruct (NewWithRandSeed maxLevel seed) as [sl0|f] eqn:Hnew.
  2:{ unfold NewWithRandSeed, newNode in Hnew.
      destruct (maxLevel <? 2)%Z eqn:E; [lia|].
      destruct (maxLevel <? 0)%Z eqn:E'; [lia|]. done. }
  pose proof (NewWithRandSeed_rep _ _ _ Hnew) as (_ & Hrand & _).
  destruct (PutAll_reach xs sl0 []) as (sl & Hput & Hreach & _);
    [by eapply reach_new|by rewrite Hrand|].
  destruct (reach_rep _ _ Hreach) as (l & Hrep & Hbag).
  exists sl0, sl, (items l). repeat split; [done|by apply iterate_items| |].
  - rewrite Hbag, app_nil_r. symmetry. apply Permutation_rev.
  - apply sorted_items, Hrep.
Qed.

(** C2 (round trip): an item put and not since removed is found by Get
    under any probe that compares equal to it; the result is a stored item
    that compares equal to it. *)
Theorem get_finds_stored sl bag x probe :
  reach sl bag -> x ∈ bag -> equal probe x = true ->
  exists y, Get sl probe = Ret (Some y) /\ equal y x = true /\ y ∈ bag.
Proof.
  intros Hreach Hx Hpx. destruct (reach_rep _ _ Hreach) as (l & Hrep & Hbag).
  rewrite <- Hbag in Hx. apply list_elem_of_fmap in Hx as (t0 & -> & Ht0).
  destruct (Get_cases sl l probe Hrep) as [[_ Hnone]|(t & Ht & Heq & Hget)].
  - rewrite Forall_forall in Hnone. specialize (Hnone _ Ht0).
    rewrite equal_sym in Hnone. congruence.
  - exists (t_item t). repeat split; [done| |].
    + by apply (equal_trans _ probe).
    + rewrite <- Hbag. by apply list_elem_of_fmap_2.
Qed.

(** C3 (length accounting): the length is the number of stored items; a
    Put adds one; a Delete or PopFirst that returns an item takes one off;
    a Delete of an absent item and a PopFirst on an empty list change
    nothing. *)
Theorem length_accounting sl bag :
  reach sl bag ->
  Len sl = Z.of_nat (length bag) /\
  (forall x, 0 < trials (sl_rand sl) ->
     exists sl', Put sl x = Ret sl' /\ Len sl' = (Len sl + 1)%Z) /\
  (forall x, exists sl' r,
     Delete sl x = Ret (sl', r) /\
     Len sl' = (match r with Some _ => Len sl - 1 | None => Len sl end)%Z /\
     ((forall y, y ∈ bag -> equal y x = false) -> r = None)) /\
  (exists sl' r,
     PopFirst sl = Ret (sl', r) /\
     Len sl' = (match r with Some _ => Len sl - 1 | None => Len sl end)%Z /\
     (bag = [] -> r = None)).
Proof.
  intros Hreach. destruct (reach_rep _ _ Hreach) as (l & Hrep & Hbag).
  unfold Len. split; [by apply reach_length|]. split; [|split].
  - intros x Htr. destruct (Put_reach sl bag x Hreach Htr) as (sl' & ? & _ & ? & _).
    by exists sl'.
  - intros x. destruct (Delete_cases sl l x Hrep)
      as [(b & Hdel & _)|(pre & t & post & sl' & Hl & Heq & Hdel & _ & Hlen & _)].
    + exists (with_buf sl b), None. by repeat split.
    + exists sl', (Some (t_item t)). repeat split; [done..|].
      intros Habs. rewrite (Habs (t_item t)) in Heq; [done|].
      rewrite <- Hbag, Hl. apply list_elem_of_fmap_2. set_solver.
  - destruct l as [|t post].
    + exists sl, None. rewrite (PopFirst_empty sl Hrep). by repeat split.
    + destruct (PopFirst_spec sl t post Hrep) as (sl2 & _ & Hpop & _ & Hlen & _).
      eexists _, _. split; [exact Hpop|]. split; [done|].
      intros ->. by apply Permutation_nil_r in Hbag.
Qed.

(** C4, as amended (level bookkeeping): at every reachable state
    0 <= level <= maxLevel and every head link at an index >= level is
    absent.  Whenever items are stored, level >= 1 and the head link at
    level - 1 is present, so level is the smallest such value; an emptied
    list keeps level 1 at most.  The constructor leaves level 0, Put
    leaves level >= 1, and Delete and PopFirst neither raise it nor take
    it from >= 1 to below 1. *)
Theorem level_invariant sl bag :
  reach sl bag ->
  (0 <= Level sl <= MaxLevel sl)%Z /\
  (forall i, Z.to_nat (Level sl) <= i < Z.to_nat (MaxLevel sl) ->
     getFwd (sl_heap sl) (Some (sl_head sl)) i = Ret None) /\
  (bag <> [] ->
     (1 <= Level sl)%Z /\
     exists a, getFwd (sl_heap sl) (Some (sl_head sl)) (Z.to_nat (Level sl - 1))
                 = Ret (Some a)) /\
  (bag = [] -> (Level sl <= 1)%Z) /\
  (forall x sl', Put sl x = Ret sl' -> (1 <= Level sl')%Z) /\
  (forall x sl' r, Delete sl x = Ret (sl', r) ->
     (Z.min 1 (Level sl) <= Level sl' <= Level sl)%Z) /\
  (forall sl' r, PopFirst sl = Ret (sl', r) ->
     (Z.min 1 (Level sl) <= Level sl' <= Level sl)%Z) /\
  (forall maxLevel seed sl0,
     NewWithRandSeed maxLevel seed = Ret sl0 -> Level sl0 = 0%Z).
Proof.
  intros Hreach. destruct (reach_rep _ _ Hreach) as (l & Hrep & Hbag).
  unfold Level, MaxLevel.
  pose proof (rep_level _ _ Hrep) as Hlevel.
  pose proof (rep_heights _ _ Hrep) as Hh.
  assert (forall i, i < Z.to_nat (sl_maxLevel sl) ->
            getFwd (sl_heap sl) (Some (sl_head sl)) i = Ret (first_at i l)) as Hget.
  { intros i Hi. apply (cell_ok_getFwd _ (head_cell sl)); [|done].
    by apply (rep_linked _ _ Hrep i []). }
  split; [done|]. split; [|split; [|split; [|split; [|split; [|split]]]]].
  - intros i Hi. rewrite Hget by lia.
    f_equal. apply first_at_None. eapply Forall_impl; [exact Hh|].
    simpl. unfold low. intros. lia.
  - intros Hne. destruct l as [|t post].
    { apply Permutation_nil_l in Hbag. by subst. }
    apply Forall_cons in Hh as [Ht _]. split; [lia|].
    rewrite Hget by lia.
    destruct (first_at (Z.to_nat (sl_level sl - 1)) (t :: post)) as [a|] eqn:E;
      [by exists a|].
    destruct (decide (1 < sl_level sl)%Z) as [Hgt|Hle].
    + by destruct (rep_top _ _ Hrep Hgt).
    + replace (Z.to_nat (sl_level sl - 1)) with 0 in E by lia.
      rewrite first_at_cons_high in E by lia. done.
  - intros ->. apply Permutation_nil_r in Hbag. unfold items in Hbag.
    apply map_eq_nil in Hbag. subst l.
    destruct (decide (1 < sl_level sl)%Z) as [Hgt|Hle]; [|lia].
    by destruct (rep_top _ _ Hrep Hgt).
  - intros x sl' Hput. destruct (Put_randLevel _ _ _ Hput) as (lvl & rest & Hrand).
    destruct (Put_rep sl l x lvl rest Hrep Hrand) as (sl2 & _ & Hput' & _ & _ & _ & _ & ?).
    by assert (sl' = sl2) as -> by congruence.
  - intros x sl' r Hdel. destruct (Delete_cases sl l x Hrep)
      as [(b & Hdel' & _)|(pre & t & post & sl2 & _ & _ & Hdel' & _ & _ & _ & _ & ?)].
    + assert (sl' = with_buf sl b) as -> by congruence. simpl. lia.
    + by assert (sl' = sl2) as -> by congruence.
  - intros sl' r Hpop. destruct l as [|t post].
    + rewrite (PopFirst_empty sl Hrep) in Hpop.
      assert (sl' = sl) as -> by congruence. lia.
    + destruct (PopFirst_spec sl t post Hrep)
        as (sl2 & _ & Hpop' & _ & _ & _ & _ & _ & ?).
      by assert (sl' = with_buf sl2 (sl_buf sl)) as -> by congruence.
  - intros mx seed sl0. unfold NewWithRandSeed, newNode.
    destruct (mx <? 2)%Z; [done|]. destruct (mx <? 0)%Z; [done|].
    by intros [= <-].
Qed.

(** C6 (PopFirst refines Delete of the first item): on a non-empty list
    PopFirst returns the item First reports, a minimum of the stored
    items, and leaves the same store (all nodes and links), the same
    stored items, length and level as Delete called with that item. *)
Theorem popfirst_is_delete_first sl bag :
  reach sl bag -> bag <> [] ->
  exists y sl1 sl2 bag',
    First sl = Ret (Some y) /\
    PopFirst sl = Ret (sl1, Some y) /\ DeleteFirst sl = Ret (sl2, Some y) /\
    sl_heap sl1 = sl_heap sl2 /\ sl_head sl1 = sl_head sl2 /\
    Len sl1 = Len sl2 /\ Level sl1 = Level sl2 /\ MaxLevel sl1 = MaxLevel sl2 /\
    bag ≡ₚ y :: bag' /\ reach sl1 bag' /\ reach sl2 bag' /\
    (forall z, z ∈ bag -> Less z y = false).
Proof.
  intros Hreach Hne. destruct (reach_rep _ _ Hreach) as (l & Hrep & Hbag).
  destruct l as [|t post].
  { apply Permutation_nil_l in Hbag. by subst. }
  destruct (PopFirst_spec sl t post Hrep) as (sl2 & Hdel & Hpop & _).
  exists (t_item t), (with_buf sl2 (sl_buf sl)), sl2, (items post).
  unfold DeleteFirst. rewrite (First_spec sl _ Hrep). simpl.
  repeat split; try done.
  - by eapply reach_pop.
  - by eapply reach_delete.
  - intros z Hz. rewrite <- Hbag in Hz. simpl in Hz.
    apply elem_of_cons in Hz as [->|Hz]; [apply Less_irrefl|].
    apply list_elem_of_fmap in Hz as (t' & -> & Ht').
    pose proof (rep_sorted _ _ Hrep) as Hs.
    apply StronglySorted_cons in Hs as [Hall _].
    rewrite Forall_forall in Hall. by apply Hall.
Qed.

(** C7 (Delete of an absent item): when no stored item compares equal to
    [x], Delete reports not-found and leaves length, level and every node
    with its forward links as they were. *)
Theorem delete_absent_unchanged sl bag x :
  reach sl bag -> (forall y, y ∈ bag -> equal y x = false) ->
  exists sl',
    Delete sl x = Ret (sl', None) /\
    Len sl' = Len sl /\ Level sl' = Level sl /\ MaxLevel sl' = MaxLevel sl /\
    sl_head sl' = sl_head sl /\ sl_heap sl' = sl_heap sl.
Proof.
  intros Hreach Habs. destruct (reach_rep _ _ Hreach) as (l & Hrep & Hbag).
  destruct (Delete_cases sl l x Hrep)
    as [(b & Hdel & _)|(pre & t & post & sl' & Hl & Heq & _)].
  - exists (with_buf sl b). by repeat split.
  - rewrite (Habs (t_item t)) in Heq; [done|].
    rewrite <- Hbag, Hl. apply list_elem_of_fmap_2. set_solver.
Qed.

(** C8 (construction): a maxLevel below 2 panics; any maxLevel from 2 on
    gives an empty list with that maxLevel. *)
Theorem new_rejects_small_maxLevel maxLevel seed :
  ((maxLevel < 2)%Z -> NewWithRandSeed maxLevel seed = Fault BadMaxLevel) /\
  ((2 <= maxLevel)%Z ->
     exists sl, NewWithRandSeed maxLevel seed = Ret sl /\
                Len sl = 0%Z /\ MaxLevel sl = maxLevel /\
                First sl = Ret None /\ iterate sl None = Ret []).
Proof.
  unfold NewWithRandSeed, newNode. split; intros Hmx.
  - by destruct (maxLevel <? 2)%Z eqn:E; [|lia].
  - destruct (maxLevel <? 2)%Z eqn:E; [lia|].
    destruct (maxLevel <? 0)%Z eqn:E'; [lia|]. cbn [bind].
    eexists. split; [done|]. repeat split.
    unfold iterate, NewIterator. cbn [bind drain sl_heap length].
    unfold Next, getFwd, deref, index. cbn.
    destruct (Z.to_nat maxLevel) as [|n] eqn:En; [lia|]. done.
Qed.

(** C9 (exhausted iterator): once Next has returned false, the cursor is
    nil and the following Next panics on the nil dereference. *)
Theorem next_after_end_faults sl iter iter' :
  Next sl iter = Ret (false, iter') -> Next sl iter' = Fault NilDereference.
Proof.
  unfold Next. intros (n & _ & Hret)%bind_Ret.
  injection Hret as Hn <-. apply bool_decide_eq_false in Hn.
  destruct n as [a|]; [by destruct Hn|]. done.
Qed.

(** C10 (duplicates): with two stored items equal to [x], one Delete
    removes a single item equal to [x], the length drops by one, and Get
    still finds an item equal to [x]. *)
Theorem delete_one_of_duplicates sl bag x y1 y2 rest :
  reach sl bag -> bag ≡ₚ y1 :: y2 :: rest ->
  equal y1 x = true -> equal y2 x = true ->
  exists sl' y bag',
    Delete sl x = Ret (sl', Some y) /\ equal y x = true /\
    bag ≡ₚ y :: bag' /\ reach sl' bag' /\
    Len sl' = (Len sl - 1)%Z /\
    forall probe, equal probe x = true ->
      exists z, Get sl' probe = Ret (Some z) /\ equal z x = true /\ z ∈ bag'.
Proof.
  intros Hreach Hperm Hy1 Hy2.
  destruct (reach_rep _ _ Hreach) as (l & Hrep & Hbag).
  destruct (Delete_cases sl l x Hrep)
    as [(b & _ & _ & Hnone)|(pre & t & post & sl' & Hl & Heq & Hdel & Hrep' & Hlen & _)].
  { assert (y1 ∈ items l) as Hin by (rewrite Hbag, Hperm; set_solver).
    apply list_elem_of_fmap in Hin as (t & -> & Ht).
    rewrite Forall_forall in Hnone. rewrite (Hnone t Ht) in Hy1. done. }
  assert (bag ≡ₚ t_item t :: items (pre ++ post)) as Hbag'.
  { rewrite <- Hbag, Hl. unfold items. rewrite !map_app. simpl.
    symmetry. apply Permutation_middle. }
  assert (reach sl' (items (pre ++ post))) as Hreach'
    by (by eapply reach_delete).
  exists sl', (t_item t), (items (pre ++ post)).
  repeat split; [done..|].
  assert (exists y, y ∈ items (pre ++ post) /\ equal y x = true) as (y & Hy & Hyx).
  { rewrite Hperm in Hbag'.
    assert (y1 ∈ t_item t :: items (pre ++ post)) as Hin
      by (rewrite <- Hbag'; set_solver).
    apply elem_of_cons in Hin as [->|Hin]; [|by exists y1].
    apply Permutation_cons_inv in Hbag'.
    exists y2. split; [|done]. rewrite <- Hbag'. set_solver. }
  intros probe Hprobe.
  apply list_elem_of_fmap in Hy as (t0 & -> & Ht0).
  destruct (Get_cases sl' (pre ++ post) probe Hrep')
    as [[_ Hnone]|(t1 & Ht1 & Heq1 & Hget)].
  - rewrite Forall_forall in Hnone. specialize (Hnone _ Ht0).
    rewrite (equal_trans _ x) in Hnone; [done..|]. by rewrite equal_sym.
  - exists (t_item t1). repeat split; [done| |].
    + by apply (equal_trans _ probe).
    + by apply list_elem_of_fmap_2.
Qed.

(** ** Further properties of the operations

    The observable state of a list is the sequence [iterate sl None]
    returns; the operations are described by what they do to it. *)

Lemma below_items x pre :
  Forall (below x) pre -> Forall (fun y => Less y x = true) (items pre).
Proof. intros H. unfold items. by apply Forall_fmap. Qed.

Lemma not_below_items x post :
  Forall (not_below x) post -> Forall (fun y => Less y x = false) (items post).
Proof. intros H. unfold items. by apply Forall_fmap. Qed.

Lemma items_app l1 l2 : items (l1 ++ l2) = items l1 ++ items l2.
Proof. unfold items. apply map_app. Qed.

(** A probe equal to [x] splits a sorted list where [x] does. *)
Lemma equal_split x probe pre post :
  equal probe x = true ->
  Forall (below x) pre -> Forall (not_below x) post ->
  Forall (below probe) pre /\ Forall (not_below probe) post.
Proof.
  intros [Hpx Hxp]%equal_true Hpre Hpost. split.
  - eapply Forall_impl; [exact Hpre|]. unfold below. intros t Ht.
    destruct (Less (t_item t) probe) eqn:E; [done|].
    by rewrite (Less_negtrans _ _ _ E Hpx) in Ht.
  - eapply Forall_impl; [exact Hpost|]. unfold not_below. intros t Ht.
    by apply (Less_negtrans _ x).
Qed.

(** The iteration of any reachable state, whatever calls led to it, is a
    sorted arrangement of the items put and not yet removed. *)
Theorem iterate_sorted_reachable sl bag :
  reach sl bag ->
  exists xs, iterate sl None = Ret (map Some xs) /\ xs ≡ₚ bag /\ sorted xs.
Proof.
  intros (l & Hrep & Hbag)%reach_rep. exists (items l).
  split; [by apply iterate_items|]. split; [done|]. apply sorted_items, Hrep.
Qed.

(** Get returns the first item of the iteration that is not less than the
    probe when that item is equal to the probe, and nil otherwise; so it
    returns nil when no stored item is equal to the probe. *)
Theorem get_first_not_less sl bag x :
  reach sl bag ->
  exists lo hi,
    iterate sl None = Ret (map Some (lo ++ hi)) /\
    Forall (fun y => Less y x = true) lo /\
    Forall (fun y => Less y x = false) hi /\
    Get sl x = Ret (match hi with
                    | y :: _ => if equal y x then Some y else None
                    | [] => None
                    end) /\
    ((forall y, y ∈ bag -> equal y x = false) -> Get sl x = Ret None).
Proof.
  intros (l & Hrep & Hbag)%reach_rep.
  destruct (sorted_split l x (rep_sorted _ _ Hrep)) as (pre & post & Heq & Hpre & Hpost).
  exists (items pre), (items post). rewrite <- items_app, <- Heq.
  split; [by apply iterate_items|].
  split; [by apply below_items|]. split; [by apply not_below_items|].
  rewrite (Get_spec sl l x pre post) by done. split.
  - by destruct post.
  - intros Habs. destruct post as [|t post']; [done|]. simpl.
    rewrite Habs; [done|]. rewrite <- Hbag, Heq.
    apply list_elem_of_fmap_2. apply elem_of_app. right. by apply elem_of_cons; left.
Qed.

(** Has is true exactly when some stored item is equal to the probe. *)
Theorem has_iff_stored sl bag x :
  reach sl bag ->
  exists b, Has sl x = Ret b /\
            (b = true <-> exists y, y ∈ bag /\ equal y x = true).
Proof.
  intros (l & Hrep & Hbag)%reach_rep. unfold Has.
  destruct (Get_cases sl l x Hrep) as [[-> Hnone]|(t & Ht & Heq & ->)]; cbn [bind].
  - exists false. split; [done|]. split; [done|]. intros (y & Hy & Hyx).
    rewrite <- Hbag in Hy. apply list_elem_of_fmap in Hy as (t & -> & Ht).
    rewrite Forall_forall in Hnone. by rewrite (Hnone t Ht) in Hyx.
  - exists true. split; [by rewrite bool_decide_true by eauto|].
    split; [|done]. intros _. exists (t_item t). split; [|done].
    rewrite <- Hbag. by apply list_elem_of_fmap_2.
Qed.

(** When a single stored item is equal to the probe, Get returns that very
    item, with whatever else it carries beside the part that is compared. *)
Theorem get_unique_exact sl bag x probe :
  reach sl bag -> x ∈ bag -> equal probe x = true ->
  (forall y, y ∈ bag -> equal y x = true -> y = x) ->
  Get sl probe = Ret (Some x).
Proof.
  intros Hreach Hx Hpx Huniq.
  destruct (reach_rep _ _ Hreach) as (l & Hrep & Hbag).
  rewrite <- Hbag in Hx. apply list_elem_of_fmap in Hx as (t0 & -> & Ht0).
  destruct (Get_cases sl l probe Hrep) as [[_ Hnone]|(t & Ht & Heq & Hget)].
  - rewrite Forall_forall in Hnone. specialize (Hnone _ Ht0).
    rewrite equal_sym in Hnone. congruence.
  - rewrite Hget. do 2 f_equal. apply Huniq.
    + rewrite <- Hbag. by apply list_elem_of_fmap_2.
    + by apply (equal_trans _ probe).
Qed.

(** Put places the new item after every item less than it and before every
    other item, so before the stored items equal to it. *)
Theorem put_inserts_before_equals sl bag x sl' :
  reach sl bag -> Put sl x = Ret sl' ->
  exists lo hi,
    iterate sl None = Ret (map Some (lo ++ hi)) /\
    Forall (fun y => Less y x = true) lo /\
    Forall (fun y => Less y x = false) hi /\
    iterate sl' None = Ret (map Some (lo ++ x :: hi)).
Proof.
  intros (l & Hrep & Hbag)%reach_rep Hput.
  destruct (sorted_split l x (rep_sorted _ _ Hrep)) as (pre & post & Heq & Hpre & Hpost).
  destruct (Put_randLevel _ _ _ Hput) as (lvl & rest & Hrand).
  destruct (Put_spec sl l x pre post lvl rest) as (sl2 & Hput' & Hrep' & _); [done..|].
  assert (sl2 = sl') as -> by congruence.
  exists (items pre), (items post). rewrite <- items_app, <- Heq.
  split; [by apply iterate_items|].
  split; [by apply below_items|]. split; [by apply not_below_items|].
  rewrite (iterate_items _ _ Hrep'). by rewrite items_app.
Qed.

(** After a Put, Get with a probe equal to the new item returns the new
    item itself, also when older items equal to it are stored. *)
Theorem put_then_get_latest sl bag x sl' probe :
  reach sl bag -> Put sl x = Ret sl' -> equal probe x = true ->
  Get sl' probe = Ret (Some x).
Proof.
  intros (l & Hrep & Hbag)%reach_rep Hput Hpx.
  destruct (sorted_split l x (rep_sorted _ _ Hrep)) as (pre & post & Heq & Hpre & Hpost).
  destruct (Put_randLevel _ _ _ Hput) as (lvl & rest & Hrand).
  destruct (Put_spec sl l x pre post lvl rest) as (sl2 & Hput' & Hrep' & _); [done..|].
  assert (sl2 = sl') as -> by congruence.
  destruct (equal_split x probe pre post Hpx Hpre Hpost) as [Hpre' Hpost'].
  erewrite (Get_spec sl' _ probe pre
              (mkTower (length (sl_heap sl)) x (Z.to_nat lvl) :: post));
    [|exact Hrep'|done|done|].
  - simpl. by rewrite equal_sym, Hpx.
  - constructor; [|done]. unfold not_below. simpl.
    by apply equal_true in Hpx as [_ ?].
Qed.

(** A Delete right after a Put, with a probe equal to the new item, returns
    the new item itself and brings back the length and the iteration the
    list had before the Put. *)
Theorem put_then_delete_restores sl bag x sl' probe :
  reach sl bag -> Put sl x = Ret sl' -> equal probe x = true ->
  exists sl'',
    Delete sl' probe = Ret (sl'', Some x) /\
    Len sl'' = Len sl /\ iterate sl'' None = iterate sl None /\
    reach sl'' bag.
Proof.
  intros Hreach Hput Hpx.
  destruct (reach_rep _ _ Hreach) as (l & Hrep & Hbag).
  destruct (sorted_split l x (rep_sorted _ _ Hrep)) as (pre & post & Heq & Hpre & Hpost).
  destruct (Put_randLevel _ _ _ Hput) as (lvl & rest & Hrand).
  destruct (Put_spec sl l x pre post lvl rest)
    as (sl2 & Hput' & Hrep' & _ & Hlen & _); [done..|].
  assert (sl2 = sl') as -> by congruence.
  destruct (equal_split x probe pre post Hpx Hpre Hpost) as [Hpre' Hpost'].
  set (T := mkTower (length (sl_heap sl)) x (Z.to_nat lvl)) in *.
  destruct (Delete_found sl' (pre ++ T :: post) probe pre T post)
    as (upd & h2 & lvl' & Hdel & Hrep'' & _); [done|done|done| | |].
  { constructor; [|done]. unfold not_below. simpl.
    by apply equal_true in Hpx as [_ ?]. }
  { simpl. by rewrite equal_sym. }
  cbn zeta in *. eexists. split; [exact Hdel|].
  split; [unfold Len; simpl; lia|]. split.
  - rewrite (iterate_items _ _ Hrep''), (iterate_items _ _ Hrep). by rewrite Heq.
  - eapply reach_delete; [by eapply reach_put| exact Hdel | done].
Qed.

(** Delete removes the first item of the iteration that is not less than
    its argument when that item is equal to the argument, and returns it;
    otherwise it returns nil and the iteration stays as it is. *)
Theorem delete_removes_first_equal sl bag x :
  reach sl bag ->
  exists lo hi sl',
    iterate sl None = Ret (map Some (lo ++ hi)) /\
    Forall (fun y => Less y x = true) lo /\
    Forall (fun y => Less y x = false) hi /\
    Delete sl x = Ret (sl', match hi with
                            | y :: _ => if equal y x then Some y else None
                            | [] => None
                            end) /\
    iterate sl' None = Ret (map Some (lo ++ match hi with
                                            | y :: hi' => if equal y x then hi' else hi
                                            | [] => []
                                            end)).
Proof.
  intros (l & Hrep & Hbag)%reach_rep.
  destruct (sorted_split l x (rep_sorted _ _ Hrep)) as (pre & post & Heq & Hpre & Hpost).
  exists (items pre), (items post).
  assert (match post with
          | [] => True
          | t :: _ => equal (t_item t) x = false
          end \/ exists t post', post = t :: post' /\ equal (t_item t) x = true)
    as [Habs|(t & post' & -> & Ht)].
  { destruct post as [|t post']; [by left|].
    destruct (equal (t_item t) x) eqn:E; [right; eauto | by left]. }
  - destruct (Delete_absent sl l x pre post) as (b & Hdel & Hb); [done..|].
    exists (with_buf sl b). rewrite <- items_app, <- Heq.
    split; [by apply iterate_items|].
    split; [by apply below_items|]. split; [by apply not_below_items|]. split.
    + rewrite Hdel. by destruct post as [|t post']; [|simpl; rewrite Habs].
    + rewrite (iterate_items _ l) by (by apply rep_with_buf).
      rewrite Heq, items_app.
      by destruct post as [|t post']; [|simpl; rewrite Habs].
  - destruct (Delete_found sl l x pre t post')
      as (upd & h2 & lvl' & Hdel & Hrep' & _); [done..|]. cbn zeta in *.
    eexists. rewrite <- items_app, <- Heq.
    split; [by apply iterate_items|].
    split; [by apply below_items|]. split; [by apply not_below_items|].
    simpl. rewrite Ht. split; [exact Hdel|].
    rewrite (iterate_items _ _ Hrep'). by rewrite items_app.
Qed.

(** First returns the first item of the iteration, nil on an empty list
    alone; the item it returns is stored and no stored item is less. *)
Theorem first_is_head_of_iteration sl bag :
  reach sl bag ->
  exists xs,
    iterate sl None = Ret (map Some xs) /\ First sl = Ret (head xs) /\
    (head xs = None <-> bag = []) /\
    (forall y, head xs = Some y ->
       y ∈ bag /\ forall z, z ∈ bag -> Less z y = false).
Proof.
  intros (l & Hrep & Hbag)%reach_rep. exists (items l).
  split; [by apply iterate_items|].
  split; [rewrite (First_spec sl l Hrep); by destruct l|].
  destruct l as [|t post]; simpl in *.
  - apply Permutation_nil_l in Hbag. subst. by repeat split.
  - split.
    + split; [done|]. intros ->. by apply Permutation_nil_r in Hbag.
    + intros y [= <-]. split; [rewrite <- Hbag; by apply elem_of_cons; left|].
      intros z Hz. rewrite <- Hbag in Hz.
      apply elem_of_cons in Hz as [->|Hz]; [apply Less_irrefl|].
      apply list_elem_of_fmap in Hz as (t' & -> & Ht').
      pose proof (rep_sorted _ _ Hrep) as Hs.
      apply StronglySorted_cons in Hs as [Hall _].
      rewrite Forall_forall in Hall. by apply Hall.
Qed.

Lemma PopFirstN_rep : forall n sl l,
  rep sl l ->
  exists sl',
    PopFirstN n sl = Ret (sl', map Some (take n (items l))
                                 ++ replicate (n - length l) None) /\
    rep sl' (drop n l) /\
    sl_length sl' = (sl_length sl - Z.of_nat (min n (length l)))%Z.
Proof.
  induction n as [|n IH]; intros sl l Hrep; cbn [PopFirstN].
  - exists sl. simpl. rewrite drop_0. split; [done|]. split; [done|lia].
  - destruct l as [|t post].
    + rewrite (PopFirst_empty sl Hrep). cbn [bind].
      destruct (IH sl [] Hrep) as (sl' & -> & Hrep' & Hlen). cbn [bind].
      exists sl'. simpl in *. rewrite take_nil in *. simpl.
      replace (n - 0) with n by lia.
      split; [done|]. split; [by rewrite drop_nil in Hrep'|lia].
    + destruct (PopFirst_spec sl t post Hrep)
        as (sl2 & _ & -> & Hrep2 & Hlen2 & _ & Hmx & _). cbn [bind].
      destruct (IH (with_buf sl2 (sl_buf sl)) post) as (sl' & -> & Hrep' & Hlen).
      { apply rep_with_buf; [done|]. rewrite Hmx. apply Hrep. }
      cbn [bind]. exists sl'. simpl in *.
      split; [done|]. split; [done|lia].
Qed.

(** [n] calls of PopFirst return the first [n] items of the iteration in
    order, then nil for every call made on the emptied list; the list is
    left with the remaining items and its length drops by the number of
    items returned. *)
Theorem popfirst_n_drains_sorted sl bag n :
  reach sl bag ->
  exists xs sl',
    iterate sl None = Ret (map Some xs) /\ xs ≡ₚ bag /\ sorted xs /\
    PopFirstN n sl = Ret (sl', map Some (take n xs)
                                 ++ replicate (n - length xs) None) /\
    iterate sl' None = Ret (map Some (drop n xs)) /\
    Len sl' = (Len sl - Z.of_nat (min n (length bag)))%Z.
Proof.
  intros (l & Hrep & Hbag)%reach_rep.
  destruct (PopFirstN_rep n sl l Hrep) as (sl' & Hpop & Hrep' & Hlen).
  exists (items l), sl'. split; [by apply iterate_items|]. split; [done|].
  split; [apply sorted_items, Hrep|]. split; [|split].
  - rewrite Hpop. unfold items at 3. by rewrite length_map.
  - rewrite (iterate_items _ _ Hrep'). unfold items. by rewrite fmap_drop.
  - unfold Len. rewrite Hlen. apply Permutation_length in Hbag.
    unfold items in Hbag. rewrite length_map in Hbag. by rewrite Hbag.
Qed.

Lemma Clear_loop_fields : forall l fuel sl sl',
  rep sl l -> Clear_loop fuel sl = Ret sl' ->
  sl_rand sl' = sl_rand sl /\ sl_maxLevel sl' = sl_maxLevel sl /\
  sl_head sl' = sl_head sl /\ (sl_level sl' <= sl_level sl)%Z.
Proof.
  induction l as [|t post IH]; intros fuel sl sl' Hrep;
    (destruct fuel as [|fuel]; [done|]); cbn [Clear_loop].
  - rewrite (PopFirst_empty sl Hrep). cbn [bind]. intros [= <-].
    repeat split; lia.
  - destruct (PopFirst_spec sl t post Hrep)
      as (sl2 & _ & -> & Hrep2 & _ & Hrand & Hmx & Hhd & Hlvl). cbn [bind].
    intros Hloop. apply IH in Hloop as (? & ? & ? & ?).
    + simpl in *. repeat split; [congruence..|lia].
    + apply rep_with_buf; [done|]. rewrite Hmx. apply Hrep.
Qed.

(** Clear empties the list: afterwards the length is 0, First and PopFirst
    return nil, the iteration is empty and a second Clear changes nothing.
    The random source is left as it was, and the first Put on the cleared
    list gives a list holding that item alone. *)
Theorem clear_empties sl bag :
  reach sl bag ->
  exists sl',
    Clear sl = Ret sl' /\ reach sl' [] /\ Len sl' = 0%Z /\
    iterate sl' None = Ret [] /\ First sl' = Ret None /\
    PopFirst sl' = Ret (sl', None) /\ Clear sl' = Ret sl' /\
    sl_rand sl' = sl_rand sl /\ MaxLevel sl' = MaxLevel sl /\
    (Level sl' <= Level sl)%Z /\
    forall x sl'', Put sl' x = Ret sl'' -> iterate sl'' None = Ret [Some x].
Proof.
  intros Hreach. destruct (reach_rep _ _ Hreach) as (l & Hrep & Hbag).
  destruct (Clear_rep sl l Hrep) as (sl' & Hclear & Hrep').
  pose proof Hclear as Hfields. unfold Clear in Hfields.
  apply (Clear_loop_fields l _ _ _ Hrep) in Hfields as (Hrand & Hmx & _ & Hlvl).
  assert (reach sl' []) as Hreach' by (by eapply reach_clear).
  exists sl'. split; [done|]. split; [done|].
  split; [unfold Len; by rewrite (rep_length _ _ Hrep')|].
  split; [by rewrite (iterate_items _ _ Hrep')|].
  split; [by rewrite (First_spec _ _ Hrep')|].
  split; [by apply PopFirst_empty|].
  split; [unfold Clear; cbn [Clear_loop]; by rewrite (PopFirst_empty _ Hrep')|].
  split; [done|]. split; [done|]. split; [done|].
  intros x sl'' Hput.
  destruct (Put_randLevel _ _ _ Hput) as (lvl & rest & Hr).
  destruct (Put_spec sl' [] x [] [] lvl rest) as (sl2 & Hput' & Hrep2 & _);
    [done|done|constructor|constructor|done|].
  assert (sl2 = sl'') as -> by congruence.
  by rewrite (iterate_items _ _ Hrep2).
Qed.

Lemma cursor_item c p :
  c_item (cursor c p) = match last p with
                        | Some t => Some (t_item t)
                        | None => c_item c
                        end.
Proof.
  revert c. induction p as [|t p IH]; intros c; simpl; [done|].
  rewrite IH. destruct p as [|t' p']; simpl; [done|].
  destruct (last (t' :: p')) eqn:E; [done|]. by apply last_None in E.
Qed.

(** An iterator with a start bound yields the stored items that are not
    less than the bound, which are the iteration without bound from its
    first such item on. *)
Theorem iterate_from_start sl bag x :
  reach sl bag ->
  exists lo hi,
    iterate sl None = Ret (map Some (lo ++ hi)) /\
    Forall (fun y => Less y x = true) lo /\
    Forall (fun y => Less y x = false) hi /\
    iterate sl (Some x) = Ret (map Some hi).
Proof.
  intros (l & Hrep & Hbag)%reach_rep.
  destruct (sorted_split l x (rep_sorted _ _ Hrep)) as (pre & post & Heq & Hpre & Hpost).
  exists (items pre), (items post). rewrite <- items_app, <- Heq.
  split; [by apply iterate_items|].
  split; [by apply below_items|]. split; [by apply not_below_items|].
  rewrite (iterate_start_spec sl l x pre post) by done.
  unfold items. by rewrite map_map.
Qed.

(** Item is meant to follow a Next that returned true.  On a new iterator
    it reads the node the cursor starts on: nil (the head's item) without a
    start bound, and with a bound the last stored item less than the bound,
    or nil when there is none.  After a Next that returned false it panics
    on the nil cursor. *)
Theorem iterator_item_edges sl bag :
  reach sl bag ->
  (exists iter, NewIterator sl None = Ret iter /\ Item_ sl iter = Ret None) /\
  (forall x, exists lo hi iter,
     iterate sl None = Ret (map Some (lo ++ hi)) /\
     Forall (fun y => Less y x = true) lo /\
     Forall (fun y => Less y x = false) hi /\
     NewIterator sl (Some x) = Ret iter /\ Item_ sl iter = Ret (last lo)) /\
  (forall iter iter', Next sl iter = Ret (false, iter') ->
                      Item_ sl iter' = Fault NilDereference).
Proof.
  intros (l & Hrep & Hbag)%reach_rep.
  pose proof (rep_level _ _ Hrep) as Hlevel. split; [|split].
  - eexists. split; [done|]. unfold Item_. cbn [iter_n].
    destruct (cell_ok_deref _ _ _ _ (rep_linked _ _ Hrep 0 [] l eq_refl))
      as (nd & Hnd & Hit).
    simpl in Hnd, Hit. unfold deref. rewrite Hnd. cbn [bind]. by rewrite Hit.
  - intros x.
    destruct (sorted_split l x (rep_sorted _ _ Hrep))
      as (pre & post & Heq & Hpre & Hpost).
    exists (items pre), (items post). eexists. rewrite <- items_app, <- Heq.
    split; [by apply iterate_items|].
    split; [by apply below_items|]. split; [by apply not_below_items|].
    unfold NewIterator. change (sl_head sl) with (c_addr (head_cell sl)).
    rewrite (descend_spec (sl_heap sl) (head_cell sl) l x pre post (sl_level sl));
      [|apply Hrep|done..|by apply rep_fuel|by apply rep_heights_nat|simpl; lia].
    cbn [bind]. split; [done|]. unfold Item_. cbn [iter_n].
    destruct (cell_ok_deref _ _ _ _ (rep_linked _ _ Hrep 0 pre post Heq))
      as (nd & Hnd & Hit).
    rewrite Hnd. cbn [bind]. rewrite Hit, cursor_item. unfold items.
    rewrite fmap_last. by destruct (last pre).
  - intros iter iter'. unfold Next. intros (n & _ & Hret)%bind_Ret.
    injection Hret as Hn <-. apply bool_decide_eq_false in Hn.
    destruct n as [a|]; [by destruct Hn|]. done.
Qed.

Lemma randLevel_loop_exact draws : forall k lvl rest,
  randLevel_loop draws k = Ret (lvl, rest) ->
  exists wins r,
    draws = wins ++ r :: rest /\
    Forall (fun d => (Z.land d 0xffff < FactorP_threshold)%Z) wins /\
    (FactorP_threshold <= Z.land r 0xffff)%Z /\
    lvl = (k + Z.of_nat (length wins))%Z.
Proof.
  induction draws as [|d draws IH]; intros k lvl rest; simpl; [done|].
  destruct (Z.land d 65535 <? FactorP_threshold)%Z eqn:E.
  - intros (wins & r & -> & Hw & Hr & ->)%IH.
    exists (d :: wins), r. repeat split; [|done|simpl; lia].
    constructor; [lia|done].
  - intros [= <- <-]. exists [], d. repeat split; [constructor|lia|simpl; lia].
Qed.

(** randLevel consumes the draws up to the first failed trial and returns
    one more than the number of successful trials before it, capped at
    maxLevel: a level between 1 and maxLevel. *)
Theorem randLevel_exact sl lvl rest :
  randLevel sl = Ret (lvl, rest) ->
  exists wins r,
    sl_rand sl = wins ++ r :: rest /\
    Forall (fun d => (Z.land d 0xffff < FactorP_threshold)%Z) wins /\
    (FactorP_threshold <= Z.land r 0xffff)%Z /\
    lvl = Z.min (1 + Z.of_nat (length wins)) (sl_maxLevel sl) /\
    ((1 <= sl_maxLevel sl)%Z -> (1 <= lvl <= sl_maxLevel sl)%Z).
Proof.
  unfold randLevel. intros ([l0 r0] & Hloop & Hif)%bind_Ret.
  apply randLevel_loop_exact in Hloop as (wins & r & Hd & Hw & Hr & ->).
  exists wins, r.
  destruct (1 + Z.of_nat (length wins) <? sl_maxLevel sl)%Z eqn:E;
    injection Hif as <- <-; repeat split; try done; lia.
Qed.

(** ** Print *)

Lemma level_items_cons_high i t r :
  i < t_height t -> level_items i (t :: r) = t_item t :: level_items i r.
Proof. intros Hi. unfold level_items. by rewrite filter_cons_True. Qed.

Lemma level_items_cons_low i t r :
  ~ i < t_height t -> level_items i (t :: r) = level_items i r.
Proof. intros Hi. unfold level_items. by rewrite filter_cons_False. Qed.

Lemma level_items_0 l :
  Forall (fun t => 1 <= t_height t) l -> level_items 0 l = items l.
Proof.
  induction 1 as [|t l Ht _ IH]; [done|].
  rewrite level_items_cons_high by lia. by rewrite IH.
Qed.

Lemma level_items_sublist i l :
  sublist (level_items (S i) l) (level_items i l).
Proof.
  induction l as [|t l IH]; [constructor|].
  destruct (decide (S i < t_height t)).
  - rewrite !level_items_cons_high by lia. by constructor.
  - rewrite (level_items_cons_low (S i)) by done.
    destruct (decide (i < t_height t)).
    + rewrite level_items_cons_high by done. by constructor.
    + by rewrite level_items_cons_low.
Qed.

Lemma level_items_sorted i l : sorted_towers l -> sorted (level_items i l).
Proof.
  unfold sorted_towers, sorted. induction 1 as [|t l Hs IH Hall]; [constructor|].
  destruct (decide (i < t_height t)).
  - rewrite level_items_cons_high by done. constructor; [done|].
    apply Forall_forall. intros y Hy. unfold level_items, items in Hy.
    apply list_elem_of_fmap in Hy as (t' & -> & Ht').
    apply list_elem_of_filter in Ht' as [_ Ht'].
    rewrite Forall_forall in Hall. by apply Hall.
  - by rewrite level_items_cons_low.
Qed.

Lemma Print_level_spec show h c l i : forall r p fuel w,
  linked_at h c l i -> l = p ++ r -> length r < fuel ->
  Print_level show fuel h i (first_at i r) w
    = Ret (w ++ map (fun x => show x +:+ " -> ") (level_items i r)).
Proof.
  induction r as [|t r IH]; intros p fuel w Hl Heq Hfuel.
  - destruct fuel; [simpl in Hfuel; lia|]. simpl. by rewrite app_nil_r.
  - destruct (decide (i < t_height t)) as [Hi|Hi].
    + rewrite first_at_cons_high, level_items_cons_high by done.
      destruct fuel as [|fuel]; [simpl in Hfuel; lia|]. cbn [Print_level].
      destruct (linked_at_tower h c l i p t r Hl Heq) as (nd & Hnd & Hit & _ & Hv).
      simpl in Hnd, Hit, Hv. unfold deref. rewrite Hnd. cbn [bind].
      unfold index. rewrite (Hv Hi). cbn [bind].
      rewrite (IH (p ++ [t]) fuel); [|done| |simpl in Hfuel; lia].
      * rewrite Hit. simpl. by rewrite <- app_assoc.
      * rewrite Heq. by rewrite <- app_assoc.
    + rewrite first_at_cons_low, level_items_cons_low by (unfold low; lia).
      apply (IH (p ++ [t])); [done| |simpl in Hfuel; lia].
      rewrite Heq. by rewrite <- app_assoc.
Qed.

Lemma print_lines_snoc show levels : forall i xs,
  print_lines show i (levels ++ [xs])
    = print_lines show i levels ++ print_level show (i + length levels) xs.
Proof.
  induction levels as [|ys levels IH]; intros i xs; cbn [print_lines app length].
  - rewrite app_nil_r. by replace (i + 0) with i by lia.
  - rewrite IH, app_assoc. do 2 f_equal. lia.
Qed.

Lemma Print_spec show sl l w :
  rep sl l ->
  Print show sl w
    = Ret (w ++ print_lines show 0
                  (map (fun i => level_items i l) (seq 0 (Z.to_nat (sl_level sl))))).
Proof.
  intros Hrep. pose proof (rep_level _ _ Hrep) as Hlevel. unfold Print.
  destruct (for_up_inv
    (fun k w' => w' = w ++ print_lines show 0
                            (map (fun i => level_items i l) (seq 0 k)))
    (fun i w =>
       let* n := getFwd (sl_heap sl) (Some (sl_head sl)) i in
       let w := w ++ ["Level[" +:+ pretty i +:+ "]: "] in
       let* w := Print_level show (S (length (sl_heap sl))) (sl_heap sl) i n w in
       Ret (w ++ ["nil" +:+ newline]))
    (Z.to_nat (sl_level sl)) 0 w) as (w' & Hrun & ->); [| |exact Hrun].
  - simpl. by rewrite app_nil_r.
  - intros k wk Hk ->.
    rewrite (cell_ok_getFwd _ (head_cell sl) k (first_at k l));
      [|by apply (rep_linked _ _ Hrep k [])|simpl; lia].
    cbn [bind].
    rewrite (Print_level_spec show _ (head_cell sl) l k l []);
      [|apply Hrep|done|pose proof (rep_fuel _ _ Hrep); lia].
    cbn [bind]. eexists. split; [done|].
    rewrite seq_S, map_app. cbn [map]. rewrite print_lines_snoc.
    rewrite length_map, length_seq. unfold print_level. simpl.
    by rewrite <- !app_assoc.
Qed.

(** Print writes one line for each level below the current level, in
    ascending order: the label, the items linked into the level each
    followed by an arrow, and nil.  Level 0 lists the whole iteration, each
    level lists a sorted part of the level below it, in the same order. *)
Theorem print_levels show sl bag w :
  reach sl bag ->
  exists levels,
    Print show sl w = Ret (w ++ print_lines show 0 levels) /\
    length levels = Z.to_nat (Level sl) /\
    (forall xs, head levels = Some xs -> iterate sl None = Ret (map Some xs)) /\
    (forall i a b, levels !! i = Some a -> levels !! S i = Some b ->
                   sublist b a) /\
    Forall sorted levels.
Proof.
  intros (l & Hrep & Hbag)%reach_rep.
  exists (map (fun i => level_items i l) (seq 0 (Z.to_nat (sl_level sl)))).
  split; [by apply Print_spec|].
  split; [unfold Level; by rewrite length_map, length_seq|].
  assert (forall i a,
            map (fun i => level_items i l) (seq 0 (Z.to_nat (sl_level sl))) !! i
              = Some a -> a = level_items i l) as Hlook.
  { intros i a Hi. apply list_lookup_fmap_Some in Hi as (j & ? & Hj).
    apply lookup_seq in Hj as [-> _]. by subst. }
  split; [|split].
  - intros xs Hxs. rewrite head_lookup in Hxs. apply Hlook in Hxs as ->.
    rewrite level_items_0; [by apply iterate_items|].
    eapply Forall_impl; [apply (rep_heights _ _ Hrep)|]. simpl. intros. lia.
  - intros i a b Ha Hb. apply Hlook in Ha as ->. apply Hlook in Hb as ->.
    apply level_items_sublist.
  - apply Forall_forall. intros xs Hxs.
    apply list_elem_of_lookup in Hxs as (i & Hi). apply Hlook in Hi as ->.
    apply level_items_sorted, Hrep.
Qed.

(** ** The scratch buffer *)

Lemma resetBuf_exact sl :
  length (sl_buf sl) = Z.to_nat (sl_maxLevel sl) ->
  resetBuf sl = Ret (replicate (Z.to_nat (sl_maxLevel sl)) None).
Proof.
  intros Hlen. unfold resetBuf.
  destruct (for_up_inv
    (fun k b => length b = Z.to_nat (sl_maxLevel sl) /\
                forall j, j < k -> b !! j = Some None)
    (fun i b => store_at b i None) (Z.to_nat (sl_maxLevel sl)) 0 (sl_buf sl))
    as (b & -> & Hlenb & Hb).
  - split; [done|]. intros j Hj. lia.
  - intros i b Hi [Hlenb Hb]. unfold store_at. case_decide; [|lia].
    eexists. split; [done|]. rewrite length_insert. split; [done|].
    intros j Hj. destruct (decide (j = i)) as [->|Hne].
    + apply list_lookup_insert_eq. lia.
    + rewrite list_lookup_insert_ne by done. apply Hb. lia.
  - f_equal. apply list_eq. intros j.
    destruct (decide (j < Z.to_nat (sl_maxLevel sl))) as [Hj|Hj].
    + rewrite Hb by done. symmetry. by apply lookup_replicate_2.
    + rewrite !lookup_ge_None_2; [done|rewrite length_replicate; lia|lia].
Qed.

(** What the scratch buffer holds when Put or Delete is called does not
    matter: both reset it before they use it. *)
Theorem scratch_buffer_never_leaks sl bag b x :
  reach sl bag -> length b = Z.to_nat (sl_maxLevel sl) ->
  Put (with_buf sl b) x = Put sl x /\ Delete (with_buf sl b) x = Delete sl x.
Proof.
  intros (l & Hrep & _)%reach_rep Hb.
  pose proof (resetBuf_exact sl (rep_buf _ _ Hrep)) as H1.
  pose proof (resetBuf_exact (with_buf sl b) Hb) as H2. simpl in H2.
  split.
  - unfold Put. rewrite H1, H2. reflexivity.
  - unfold Delete. rewrite H1, H2. reflexivity.
Qed.

(** A list built by New with maxLevel >= 2 is empty: length 0, the given
    maxLevel, an empty iteration, and First, Get, Has, Delete and PopFirst
    all report that there is nothing, Delete and PopFirst leaving the length
    at 0. *)
Theorem new_is_empty maxLevel now x :
  (2 <= maxLevel)%Z ->
  exists sl,
    New maxLevel now = Ret sl /\ reach sl [] /\
    Len sl = 0%Z /\ MaxLevel sl = maxLevel /\
    iterate sl None = Ret [] /\ First sl = Ret None /\
    Get sl x = Ret None /\ Has sl x = Ret false /\
    (exists sl', Delete sl x = Ret (sl', None) /\ Len sl' = 0%Z) /\
    PopFirst sl = Ret (sl, None).
Proof.
  intros Hmx. unfold New.
  destruct (NewWithRandSeed maxLevel now) as [sl|f] eqn:Hnew.
  2:{ unfold NewWithRandSeed, newNode in Hnew.
      destruct (maxLevel <? 2)%Z eqn:E; [lia|].
      destruct (maxLevel <? 0)%Z eqn:E'; [lia|]. done. }
  destruct (NewWithRandSeed_rep _ _ _ Hnew) as (Hrep & _ & Hmax).
  assert (Get sl x = Ret None) as Hget.
  { destruct (Get_cases sl [] x Hrep) as [[H _]|(t & Ht & _)]; [done|].
    by apply elem_of_nil in Ht. }
  exists sl. split; [done|]. split; [by eapply reach_new|].
  split; [unfold Len; by rewrite (rep_length _ _ Hrep)|].
  split; [done|].
  split; [by rewrite (iterate_items _ _ Hrep)|].
  split; [by rewrite (First_spec _ _ Hrep)|].
  split; [done|].
  split; [unfold Has; by rewrite Hget|].
  split; [|by apply PopFirst_empty].
  destruct (Delete_cases sl [] x Hrep)
    as [(b & Hdel & _)|(pre & t & post & sl' & Heq & _)].
  - eexists. split; [exact Hdel|]. unfold Len. simpl.
    by rewrite (rep_length _ _ Hrep).
  - by destruct pre.
Qed.

(** No operation changes maxLevel.  Delete and PopFirst leave the random
    source untouched; Put consumes a non-empty prefix of it, the draws of
    its one call of randLevel. *)
Theorem operations_keep_maxLevel sl bag :
  reach sl bag ->
  (forall x sl', Put sl x = Ret sl' ->
     MaxLevel sl' = MaxLevel sl /\
     exists used, used <> [] /\ sl_rand sl = used ++ sl_rand sl') /\
  (forall x sl' r, Delete sl x = Ret (sl', r) ->
     MaxLevel sl' = MaxLevel sl /\ sl_rand sl' = sl_rand sl) /\
  (forall sl' r, PopFirst sl = Ret (sl', r) ->
     MaxLevel sl' = MaxLevel sl /\ sl_rand sl' = sl_rand sl).
Proof.
  intros Hreach. destruct (reach_rep _ _ Hreach) as (l & Hrep & _).
  split; [|split].
  - intros x sl' Hput.
    destruct (Put_randLevel _ _ _ Hput) as (lvl & rest & Hr).
    destruct (sorted_split l x (rep_sorted _ _ Hrep))
      as (pre & post & Heq & Hpre & Hpost).
    destruct (Put_spec sl l x pre post lvl rest)
      as (sl2 & Hput' & _ & Hrand & _ & Hmx & _); [done..|].
    assert (sl2 = sl') as -> by congruence.
    split; [done|].
    unfold randLevel in Hr. apply bind_Ret in Hr as ([l0 r0] & Hloop & Hif).
    apply randLevel_loop_exact in Hloop as (wins & r & Hd & _).
    assert (r0 = rest) as ->.
    { destruct (l0 <? sl_maxLevel sl)%Z; by injection Hif. }
    exists (wins ++ [r]). split; [by destruct wins|].
    by rewrite Hrand, <- app_assoc.
  - intros x sl' r Hdel.
    destruct (Delete_cases sl l x Hrep)
      as [(b & Hdel' & _)
         |(pre & t & post & sl2 & _ & _ & Hdel' & _ & _ & Hrand & Hmx & _)];
      rewrite Hdel' in Hdel; injection Hdel as <- <-; done.
  - intros sl' r Hpop. destruct l as [|t post].
    + rewrite (PopFirst_empty _ Hrep) in Hpop. by injection Hpop as <- <-.
    + destruct (PopFirst_spec sl t post Hrep)
        as (sl2 & _ & Hpop' & _ & _ & Hrand & Hmx & _).
      rewrite Hpop' in Hpop. by injection Hpop as <- <-.
Qed.

End SkipList.

(** ** Integer items *)

Lemma Int_Less_irrefl (a : Int) : Int_Less a a = false.
Proof. unfold Int_Less. lia. Qed.

Lemma Int_Less_trans (a b c : Int) :
  Int_Less a b = true -> Int_Less b c = true -> Int_Less a c = true.
Proof. unfold Int_Less. lia. Qed.

Lemma Int_Less_negtrans (a b c : Int) :
  Int_Less a b = false -> Int_Less b c = false -> Int_Less a c = false.
Proof. unfold Int_Less. lia. Qed.

Lemma sorted_seqZ n : forall m, sorted Int_Less (seqZ m (Z.of_nat n)).
Proof.
  unfold sorted. induction n as [|n IH]; intros m.
  - rewrite seqZ_nil by lia. constructor.
  - rewrite seqZ_cons by lia.
    replace (Z.pred (Z.of_nat (S n))) with (Z.of_nat n) by lia.
    constructor; [apply IH|]. apply Forall_seqZ. intros k Hk.
    unfold Int_Less. lia.
Qed.

Lemma sorted_Int_unique (l1 l2 : list Int) :
  sorted Int_Less l1 -> sorted Int_Less l2 -> l1 ≡ₚ l2 -> l1 = l2.
Proof.
  unfold sorted. apply StronglySorted_unique.
  intros a b Hab Hba. unfold Int_Less in *. lia.
Qed.

Lemma split_by_bound (k : Z) (a b c d : list Z) :
  a ++ b = c ++ d ->
  Forall (fun y => (y < k)%Z) a -> Forall (fun y => (k <= y)%Z) b ->
  Forall (fun y => (y < k)%Z) c -> Forall (fun y => (k <= y)%Z) d ->
  b = d.
Proof.
  revert c. induction a as [|y a IH]; intros c Heq Ha Hb Hc Hd.
  - destruct c as [|z c]; [done|]. simpl in Heq. subst b.
    apply Forall_cons in Hb as [Hb _]. apply Forall_cons in Hc as [Hc _]. lia.
  - apply Forall_cons in Ha as [Hy Ha]. destruct c as [|z c].
    + simpl in Heq. subst d. apply Forall_cons in Hd as [Hd _]. lia.
    + injection Heq as -> Heq. apply Forall_cons in Hc as [_ Hc]. by eapply IH.
Qed.

(** C5 (seeded iteration): on a list that holds exactly 0, 1, ..., N-1,
    whatever the order of insertion, an iterator started at [k] with
    0 <= k < N yields k, k+1, ..., N-1 in order, N - k items, and then
    ends. *)
Theorem seeded_iteration randSource (sl : SkipList) bag (N k : Z) :
  reach Int_Less randSource sl bag -> bag ≡ₚ seqZ 0 N -> (0 <= k < N)%Z ->
  exists out,
    iterate Int_Less sl (Some k) = Ret (map Some out) /\
    out = seqZ k (N - k) /\ Z.of_nat (length out) = (N - k)%Z.
Proof.
  intros Hreach Hperm Hk.
  destruct (reach_rep Int_Less randSource Int_Less_irrefl Int_Less_trans
              Int_Less_negtrans sl bag Hreach) as (l & Hrep & Hbag).
  assert (items l = seqZ 0 N) as Hitems.
  { apply sorted_Int_unique.
    - apply sorted_items, Hrep.
    - replace N with (Z.of_nat (Z.to_nat N)) by lia. apply sorted_seqZ.
    - by rewrite Hbag. }
  destruct (sorted_split Int_Less Int_Less_negtrans l k (rep_sorted _ _ _ Hrep))
    as (pre & post & Heq & Hpre & Hpost).
  assert (items post = seqZ k (N - k)) as Hout.
  { apply (split_by_bound k (items pre) _ (seqZ 0 k)).
    - unfold items. rewrite <- map_app, <- Heq. fold (items l). rewrite Hitems.
      replace N with (k + (N - k))%Z at 1 by lia.
      rewrite seqZ_app by lia. done.
    - unfold items. apply Forall_fmap. eapply Forall_impl; [exact Hpre|].
      unfold below, Int_Less. simpl. intros. lia.
    - unfold items. apply Forall_fmap. eapply Forall_impl; [exact Hpost|].
      unfold not_below, Int_Less. simpl. intros. lia.
    - apply Forall_seqZ. intros. lia.
    - apply Forall_seqZ. intros. lia. }
  exists (items post). split; [|split; [done|]].
  - erewrite iterate_start_spec;
      eauto using Int_Less_irrefl, Int_Less_trans, Int_Less_negtrans.
    unfold items. by rewrite map_map.
  - rewrite Hout, length_seqZ. lia.
Qed.

(** ** The properties at concrete lists

    The lists below are built by the constructor and Put calls on integer
    items, drawing levels from [demo_source]. *)

(** Runs the constructor and the Put calls an example starts with. *)
Ltac run_puts :=
  eexists _, _; split; [vm_compute; reflexivity|];
  split; [vm_compute; reflexivity|].

(** The state those calls return is reachable. *)
Ltac by_puts maxLevel xs :=
  eapply (reach_of_puts Int_Less demo_source maxLevel 0%Z _ xs);
  vm_compute; reflexivity.

(** The scenario of the README: five Put calls, then Get, First, PopFirst
    and a full iteration. *)
Example readme_scenario :
  (let* sl := NewWithRandSeed demo_source 16 0 in
   let* sl := PutAll Int_Less sl [3; 1; 5; 2; 6]%Z in
   let* got := Get Int_Less sl 2%Z in
   let* first := First sl in
   let* '(sl, popped) := PopFirst sl in
   let* out := iterate Int_Less sl None in
   Ret (got, first, popped, Len sl, out))
  = Ret (Some 2, Some 1, Some 1, 4, [Some 2; Some 3; Some 5; Some 6])%Z.
Proof. vm_compute. reflexivity. Qed.

Lemma put_all_iterate_sorted_witness :
  (2 <= 16)%Z /\ length [3; 1; 5; 2; 6]%Z <= trials (demo_source 0) /\
  exists sl0 sl out,
    NewWithRandSeed demo_source 16 0 = Ret sl0 /\
    PutAll Int_Less sl0 [3; 1; 5; 2; 6]%Z = Ret sl /\
    iterate Int_Less sl None = Ret (map Some out) /\
    out ≡ₚ [3; 1; 5; 2; 6]%Z /\ sorted Int_Less out.
Proof.
  split; [lia|]. split; [vm_compute; lia|].
  apply (put_all_iterate_sorted Int_Less demo_source Int_Less_irrefl
           Int_Less_trans Int_Less_negtrans 16 0 [3; 1; 5; 2; 6]%Z);
    [lia | vm_compute; lia].
Defined.

Lemma get_finds_stored_witness :
  exists sl0 sl,
    NewWithRandSeed demo_source 16 0 = Ret sl0 /\
    PutAll Int_Less sl0 [3; 1; 5; 2; 6]%Z = Ret sl /\
    exists y, Get Int_Less sl 2%Z = Ret (Some y) /\
              equal Int_Less y 2%Z = true /\ y ∈ [6; 2; 5; 1; 3]%Z.
Proof.
  run_puts.
  eapply (get_finds_stored Int_Less demo_source Int_Less_irrefl Int_Less_trans
           Int_Less_negtrans _ [6; 2; 5; 1; 3]%Z 2%Z 2%Z).
  - by_puts 16%Z [3; 1; 5; 2; 6]%Z.
  - repeat constructor.
  - vm_compute; reflexivity.
Defined.

Lemma length_accounting_witness :
  exists sl0 sl,
    NewWithRandSeed demo_source 16 0 = Ret sl0 /\
    PutAll Int_Less sl0 [3; 1; 5; 2; 6]%Z = Ret sl /\
    Len sl = 5%Z /\
    (exists sl', Put Int_Less sl 4%Z = Ret sl' /\ Len sl' = (Len sl + 1)%Z) /\
    (exists sl' r, PopFirst sl = Ret (sl', r) /\
       Len sl' = match r with Some _ => Len sl - 1 | None => Len sl end%Z).
Proof.
  run_puts.
  lazymatch goal with |- Len ?s = _ /\ _ =>
    destruct (length_accounting Int_Less demo_source Int_Less_irrefl Int_Less_trans
                Int_Less_negtrans s [6; 2; 5; 1; 3]%Z) as (Hlen & Hput & _ & Hpop)
  end.
  - by_puts 16%Z [3; 1; 5; 2; 6]%Z.
  - split; [exact Hlen|]. split.
    + apply (Hput 4%Z). vm_compute. lia.
    + destruct Hpop as (sl' & r & Hp & Hl & _). by exists sl', r.
Defined.

Lemma level_invariant_witness :
  exists sl0 sl,
    NewWithRandSeed demo_source 16 0 = Ret sl0 /\
    PutAll Int_Less sl0 [3; 1; 5; 2; 6]%Z = Ret sl /\
    (0 <= Level sl <= MaxLevel sl)%Z /\
    (forall i, Z.to_nat (Level sl) <= i < Z.to_nat (MaxLevel sl) ->
       getFwd (sl_heap sl) (Some (sl_head sl)) i = Ret None) /\
    (1 <= Level sl)%Z /\
    exists a, getFwd (sl_heap sl) (Some (sl_head sl)) (Z.to_nat (Level sl - 1))
                = Ret (Some a).
Proof.
  run_puts.
  lazymatch goal with |- (_ <= Level ?s <= _)%Z /\ _ =>
    destruct (level_invariant Int_Less demo_source Int_Less_irrefl Int_Less_trans
                Int_Less_negtrans s [6; 2; 5; 1; 3]%Z) as (Hrange & Habs & Htop & _)
  end.
  - by_puts 16%Z [3; 1; 5; 2; 6]%Z.
  - split; [exact Hrange|]. split; [exact Habs|]. by apply Htop.
Defined.

(** C4 as stated fails: right after construction the level is 0, below the
    claimed floor of 1; and after the only item is deleted the level is 1
    although the head has no link at index 0 either, so 1 is not the
    smallest value above which the head is empty. *)
Lemma level_floor_counterexample :
  (exists sl,
     NewWithRandSeed (Item := Int) demo_source 2 0 = Ret sl /\
     reach Int_Less demo_source sl [] /\
     ~ (1 <= Level sl <= MaxLevel sl)%Z) /\
  (exists sl0 sl1 sl,
     NewWithRandSeed demo_source 2 0 = Ret sl0 /\
     Put Int_Less sl0 1%Z = Ret sl1 /\
     Delete Int_Less sl1 1%Z = Ret (sl, Some 1%Z) /\
     reach Int_Less demo_source sl [] /\
     Level sl = 1%Z /\
     getFwd (sl_heap sl) (Some (sl_head sl)) 0 = Ret None).
Proof.
  split.
  - eexists. split; [vm_compute; reflexivity|]. split.
    + apply (reach_new Int_Less demo_source 2 0). vm_compute; reflexivity.
    + vm_compute. intros [H _]. by apply H.
  - eexists _, _, _. split; [vm_compute; reflexivity|].
    split; [vm_compute; reflexivity|]. split; [vm_compute; reflexivity|].
    split; [|split; vm_compute; reflexivity].
    eapply (reach_delete Int_Less demo_source _ [1%Z] 1%Z _ 1%Z []);
      [eapply (reach_put Int_Less demo_source _ [] 1%Z);
         [apply (reach_new Int_Less demo_source 2 0)|];
         vm_compute; reflexivity
      |vm_compute; reflexivity|done].
Qed.

Lemma seeded_iteration_witness :
  exists sl0 sl,
    NewWithRandSeed demo_source 7 0 = Ret sl0 /\
    PutAll Int_Less sl0 [4; 3; 2; 1; 0]%Z = Ret sl /\
    exists out, iterate Int_Less sl (Some 2%Z) = Ret (map Some out) /\
                out = seqZ 2 (5 - 2) /\ Z.of_nat (length out) = (5 - 2)%Z.
Proof.
  run_puts.
  eapply (seeded_iteration demo_source _ [0; 1; 2; 3; 4]%Z 5 2).
  - by_puts 7%Z [4; 3; 2; 1; 0]%Z.
  - vm_compute. reflexivity.
  - lia.
Defined.

Lemma popfirst_is_delete_first_witness :
  exists sl0 sl,
    NewWithRandSeed demo_source 16 0 = Ret sl0 /\
    PutAll Int_Less sl0 [3; 1; 5; 2; 6]%Z = Ret sl /\
    exists y sl1 sl2,
      First sl = Ret (Some y) /\
      PopFirst sl = Ret (sl1, Some y) /\
      DeleteFirst Int_Less sl = Ret (sl2, Some y) /\
      sl_heap sl1 = sl_heap sl2 /\ Len sl1 = Len sl2 /\ Level sl1 = Level sl2.
Proof.
  run_puts.
  lazymatch goal with |- context [First ?s] =>
    destruct (popfirst_is_delete_first Int_Less demo_source Int_Less_irrefl
                Int_Less_trans Int_Less_negtrans s [6; 2; 5; 1; 3]%Z)
      as (y & sl1 & sl2 & bag' & H1 & H2 & H3 & H4 & _ & H5 & H6 & _)
  end.
  - by_puts 16%Z [3; 1; 5; 2; 6]%Z.
  - done.
  - by exists y, sl1, sl2.
Defined.

Lemma delete_absent_unchanged_witness :
  exists sl0 sl,
    NewWithRandSeed demo_source 16 0 = Ret sl0 /\
    PutAll Int_Less sl0 [3; 1; 5; 2; 6]%Z = Ret sl /\
    exists sl',
      Delete Int_Less sl 4%Z = Ret (sl', None) /\
      Len sl' = Len sl /\ Level sl' = Level sl /\ MaxLevel sl' = MaxLevel sl /\
      sl_head sl' = sl_head sl /\ sl_heap sl' = sl_heap sl.
Proof.
  run_puts.
  eapply (delete_absent_unchanged Int_Less demo_source Int_Less_irrefl
           Int_Less_trans Int_Less_negtrans _ [6; 2; 5; 1; 3]%Z 4%Z).
  - by_puts 16%Z [3; 1; 5; 2; 6]%Z.
  - intros y Hy. repeat (apply elem_of_cons in Hy as [->|Hy]; [vm_compute; reflexivity|]).
    by apply elem_of_nil in Hy.
Defined.

Lemma new_rejects_small_maxLevel_witness :
  NewWithRandSeed (Item := Int) demo_source 1 0 = Fault BadMaxLevel /\
  NewWithRandSeed (Item := Int) demo_source 0 0 = Fault BadMaxLevel /\
  exists sl, NewWithRandSeed (Item := Int) demo_source 2 0 = Ret sl /\
             Len sl = 0%Z /\ MaxLevel sl = 2%Z /\
             First sl = Ret None /\ iterate Int_Less sl None = Ret [].
Proof.
  split; [|split].
  - apply (new_rejects_small_maxLevel Int_Less demo_source 1 0). lia.
  - apply (new_rejects_small_maxLevel Int_Less demo_source 0 0). lia.
  - apply (new_rejects_small_maxLevel Int_Less demo_source 2 0). lia.
Defined.

Lemma next_after_end_faults_witness :
  exists sl iter',
    NewWithRandSeed (Item := Int) demo_source 2 0 = Ret sl /\
    Next sl (mkIterator (Some (sl_head sl))) = Ret (false, iter') /\
    Next sl iter' = Fault NilDereference.
Proof.
  run_puts.
  eapply (next_after_end_faults _ (mkIterator (Some 0))). vm_compute; reflexivity.
Defined.

Lemma delete_one_of_duplicates_witness :
  exists sl0 sl,
    NewWithRandSeed demo_source 16 0 = Ret sl0 /\
    PutAll Int_Less sl0 [7; 3; 7]%Z = Ret sl /\
    exists sl' y bag',
      Delete Int_Less sl 7%Z = Ret (sl', Some y) /\ equal Int_Less y 7%Z = true /\
      [7; 3; 7]%Z ≡ₚ y :: bag' /\ Len sl' = (Len sl - 1)%Z /\
      exists z, Get Int_Less sl' 7%Z = Ret (Some z) /\ equal Int_Less z 7%Z = true.
Proof.
  run_puts.
  lazymatch goal with |- context [Delete _ ?s 7%Z] =>
    destruct (delete_one_of_duplicates Int_Less demo_source Int_Less_irrefl
                Int_Less_trans Int_Less_negtrans s [7; 3; 7]%Z 7%Z 7%Z 7%Z [3%Z])
      as (sl' & y & bag' & Hdel & Hy & Hbag & _ & Hlen & Hget)
  end.
  - by_puts 16%Z [7; 3; 7]%Z.
  - apply perm_skip, perm_swap.
  - vm_compute; reflexivity.
  - vm_compute; reflexivity.
  - exists sl', y, bag'. repeat split; [done..|].
    destruct (Hget 7%Z) as (z & Hz & Hzx & _); [vm_compute; reflexivity|].
    by exists z.
Defined.

(** ** Further properties at integer and scored items *)

Ltac from_puts less maxLevel xs :=
  eapply (reach_of_puts less demo_source maxLevel 0%Z _ xs);
  [vm_compute; reflexivity | vm_compute; reflexivity].

Lemma ScoreItem_Less_irrefl (a : ScoreItem) : ScoreItem_Less a a = false.
Proof. unfold ScoreItem_Less. lia. Qed.

Lemma ScoreItem_Less_trans (a b c : ScoreItem) :
  ScoreItem_Less a b = true -> ScoreItem_Less b c = true ->
  ScoreItem_Less a c = true.
Proof. unfold ScoreItem_Less. lia. Qed.

Lemma ScoreItem_Less_negtrans (a b c : ScoreItem) :
  ScoreItem_Less a b = false -> ScoreItem_Less b c = false ->
  ScoreItem_Less a c = false.
Proof. unfold ScoreItem_Less. lia. Qed.

(** The check of TestIteratorNil: a list that holds exactly 0, 1, ..., N-1,
    whatever the order of the calls that built it, iterates without start
    bound as 0, 1, ..., N-1 and has length N. *)
Theorem iterate_all_range randSource (sl : SkipList) bag (N : Z) :
  reach Int_Less randSource sl bag -> bag ≡ₚ seqZ 0 N ->
  iterate Int_Less sl None = Ret (map Some (seqZ 0 N)) /\
  Len sl = Z.max 0 N.
Proof.
  intros Hreach Hperm.
  destruct (reach_rep Int_Less randSource Int_Less_irrefl Int_Less_trans
              Int_Less_negtrans sl bag Hreach) as (l & Hrep & Hbag).
  assert (items l = seqZ 0 N) as Hitems.
  { apply sorted_Int_unique.
    - apply sorted_items, Hrep.
    - destruct (decide (0 <= N)%Z).
      + replace N with (Z.of_nat (Z.to_nat N)) by lia. apply sorted_seqZ.
      + rewrite seqZ_nil by lia. constructor.
    - by rewrite Hbag. }
  split.
  - erewrite iterate_items; [by rewrite Hitems|exact Hrep].
  - unfold Len. rewrite (rep_length _ _ _ Hrep).
    rewrite <- (length_map t_item). fold (items l).
    rewrite Hitems, length_seqZ. lia.
Qed.

Lemma iterate_sorted_reachable_witness :
  exists sl0 sl,
    NewWithRandSeed demo_source 16 0 = Ret sl0 /\
    PutAll Int_Less sl0 [3; 1; 5; 2; 6]%Z = Ret sl /\
    exists xs, iterate Int_Less sl None = Ret (map Some xs) /\
               xs ≡ₚ [6; 2; 5; 1; 3]%Z /\ sorted Int_Less xs.
Proof.
  run_puts.
  eapply (iterate_sorted_reachable Int_Less demo_source Int_Less_irrefl
            Int_Less_trans Int_Less_negtrans).
  from_puts Int_Less 16%Z [3; 1; 5; 2; 6]%Z.
Defined.

Lemma get_first_not_less_witness :
  exists sl0 sl,
    NewWithRandSeed demo_source 16 0 = Ret sl0 /\
    PutAll Int_Less sl0 [3; 1; 5; 2; 6]%Z = Ret sl /\
    exists lo hi,
      iterate Int_Less sl None = Ret (map Some (lo ++ hi)) /\
      Forall (fun y => Int_Less y 4%Z = true) lo /\
      Forall (fun y => Int_Less y 4%Z = false) hi /\
      Get Int_Less sl 4%Z = Ret (match hi with
                                 | y :: _ => if equal Int_Less y 4%Z then Some y else None
                                 | [] => None
                                 end) /\
      ((forall y, y ∈ [6; 2; 5; 1; 3]%Z -> equal Int_Less y 4%Z = false) ->
       Get Int_Less sl 4%Z = Ret None).
Proof.
  run_puts.
  eapply (get_first_not_less Int_Less demo_source Int_Less_irrefl
            Int_Less_trans Int_Less_negtrans).
  from_puts Int_Less 16%Z [3; 1; 5; 2; 6]%Z.
Defined.

Lemma has_iff_stored_witness :
  exists sl0 sl,
    NewWithRandSeed demo_source 16 0 = Ret sl0 /\
    PutAll Int_Less sl0 [3; 1; 5; 2; 6]%Z = Ret sl /\
    exists b, Has Int_Less sl 5%Z = Ret b /\
              (b = true <-> exists y, y ∈ [6; 2; 5; 1; 3]%Z /\
                                      equal Int_Less y 5%Z = true).
Proof.
  run_puts.
  eapply (has_iff_stored Int_Less demo_source Int_Less_irrefl
            Int_Less_trans Int_Less_negtrans).
  from_puts Int_Less 16%Z [3; 1; 5; 2; 6]%Z.
Defined.

(** The lookup of the example program: the probe carries the score alone
    and Get returns the stored item with its value. *)
Lemma get_unique_exact_witness :
  exists sl0 sl,
    NewWithRandSeed demo_source 16 0 = Ret sl0 /\
    PutAll ScoreItem_Less sl0
      [mkScoreItem 3%Z "data1"; mkScoreItem 1%Z "data2"; mkScoreItem 5%Z "data3";
       mkScoreItem 2%Z "data4"; mkScoreItem 6%Z "data5"] = Ret sl /\
    Get ScoreItem_Less sl (mkScoreItem 2%Z EmptyString) = Ret (Some (mkScoreItem 2%Z "data4")).
Proof.
  run_puts.
  eapply (get_unique_exact ScoreItem_Less demo_source ScoreItem_Less_irrefl
            ScoreItem_Less_trans ScoreItem_Less_negtrans _
            [mkScoreItem 6%Z "data5"; mkScoreItem 2%Z "data4"; mkScoreItem 5%Z "data3";
             mkScoreItem 1%Z "data2"; mkScoreItem 3%Z "data1"]).
  - from_puts ScoreItem_Less 16%Z
      [mkScoreItem 3%Z "data1"; mkScoreItem 1%Z "data2"; mkScoreItem 5%Z "data3"; mkScoreItem 2%Z "data4"; mkScoreItem 6%Z "data5"].
  - repeat constructor.
  - vm_compute; reflexivity.
  - intros y Hy Heq.
    repeat (apply elem_of_cons in Hy as [->|Hy];
            [first [reflexivity | vm_compute in Heq; discriminate]|]).
    by apply elem_of_nil in Hy.
Defined.

Lemma put_inserts_before_equals_witness :
  exists sl0 sl sl',
    NewWithRandSeed demo_source 16 0 = Ret sl0 /\
    PutAll Int_Less sl0 [3; 1; 5; 2; 6]%Z = Ret sl /\
    Put Int_Less sl 5%Z = Ret sl' /\
    exists lo hi,
      iterate Int_Less sl None = Ret (map Some (lo ++ hi)) /\
      Forall (fun y => Int_Less y 5%Z = true) lo /\
      Forall (fun y => Int_Less y 5%Z = false) hi /\
      iterate Int_Less sl' None = Ret (map Some (lo ++ 5%Z :: hi)).
Proof.
  eexists _, _, _. split; [vm_compute; reflexivity|].
  split; [vm_compute; reflexivity|]. split; [vm_compute; reflexivity|].
  eapply (put_inserts_before_equals Int_Less demo_source Int_Less_irrefl
            Int_Less_trans Int_Less_negtrans _ [6; 2; 5; 1; 3]%Z).
  - from_puts Int_Less 16%Z [3; 1; 5; 2; 6]%Z.
  - vm_compute; reflexivity.
Defined.

(** Two items of score 3: Get returns the one put last. *)
Lemma put_then_get_latest_witness :
  exists sl0 sl sl',
    NewWithRandSeed demo_source 16 0 = Ret sl0 /\
    PutAll ScoreItem_Less sl0 [mkScoreItem 3%Z "old"; mkScoreItem 4%Z "other"] = Ret sl /\
    Put ScoreItem_Less sl (mkScoreItem 3%Z "new") = Ret sl' /\
    Get ScoreItem_Less sl' (mkScoreItem 3%Z EmptyString) = Ret (Some (mkScoreItem 3%Z "new")).
Proof.
  eexists _, _, _. split; [vm_compute; reflexivity|].
  split; [vm_compute; reflexivity|]. split; [vm_compute; reflexivity|].
  eapply (put_then_get_latest ScoreItem_Less demo_source ScoreItem_Less_irrefl
            ScoreItem_Less_trans ScoreItem_Less_negtrans _
            [mkScoreItem 4%Z "other"; mkScoreItem 3%Z "old"]).
  - from_puts ScoreItem_Less 16%Z
      [mkScoreItem 3%Z "old"; mkScoreItem 4%Z "other"].
  - vm_compute; reflexivity.
  - vm_compute; reflexivity.
Defined.

Lemma put_then_delete_restores_witness :
  exists sl0 sl sl',
    NewWithRandSeed demo_source 16 0 = Ret sl0 /\
    PutAll Int_Less sl0 [3; 1; 5; 2; 6]%Z = Ret sl /\
    Put Int_Less sl 5%Z = Ret sl' /\
    exists sl'',
      Delete Int_Less sl' 5%Z = Ret (sl'', Some 5%Z) /\
      Len sl'' = Len sl /\
      iterate Int_Less sl'' None = iterate Int_Less sl None /\
      reach Int_Less demo_source sl'' [6; 2; 5; 1; 3]%Z.
Proof.
  eexists _, _, _. split; [vm_compute; reflexivity|].
  split; [vm_compute; reflexivity|]. split; [vm_compute; reflexivity|].
  eapply (put_then_delete_restores Int_Less demo_source Int_Less_irrefl
            Int_Less_trans Int_Less_negtrans _ [6; 2; 5; 1; 3]%Z).
  - from_puts Int_Less 16%Z [3; 1; 5; 2; 6]%Z.
  - vm_compute; reflexivity.
  - vm_compute; reflexivity.
Defined.

Lemma delete_removes_first_equal_witness :
  exists sl0 sl,
    NewWithRandSeed demo_source 16 0 = Ret sl0 /\
    PutAll Int_Less sl0 [3; 1; 5; 2; 6]%Z = Ret sl /\
    exists lo hi sl',
      iterate Int_Less sl None = Ret (map Some (lo ++ hi)) /\
      Forall (fun y => Int_Less y 3%Z = true) lo /\
      Forall (fun y => Int_Less y 3%Z = false) hi /\
      Delete Int_Less sl 3%Z
        = Ret (sl', match hi with
                    | y :: _ => if equal Int_Less y 3%Z then Some y else None
                    | [] => None
                    end) /\
      iterate Int_Less sl' None
        = Ret (map Some (lo ++ match hi with
                               | y :: hi' => if equal Int_Less y 3%Z then hi' else hi
                               | [] => []
                               end)).
Proof.
  run_puts.
  eapply (delete_removes_first_equal Int_Less demo_source Int_Less_irrefl
            Int_Less_trans Int_Less_negtrans).
  from_puts Int_Less 16%Z [3; 1; 5; 2; 6]%Z.
Defined.

Lemma first_is_head_of_iteration_witness :
  exists sl0 sl,
    NewWithRandSeed demo_source 16 0 = Ret sl0 /\
    PutAll Int_Less sl0 [3; 1; 5; 2; 6]%Z = Ret sl /\
    exists xs,
      iterate Int_Less sl None = Ret (map Some xs) /\ First sl = Ret (head xs) /\
      (head xs = None <-> [6; 2; 5; 1; 3]%Z = []) /\
      (forall y, head xs = Some y ->
         y ∈ [6; 2; 5; 1; 3]%Z /\
         forall z, z ∈ [6; 2; 5; 1; 3]%Z -> Int_Less z y = false).
Proof.
  run_puts.
  eapply (first_is_head_of_iteration Int_Less demo_source Int_Less_irrefl
            Int_Less_trans Int_Less_negtrans).
  from_puts Int_Less 16%Z [3; 1; 5; 2; 6]%Z.
Defined.

(** Seven calls of PopFirst on five items. *)
Lemma popfirst_n_drains_sorted_witness :
  exists sl0 sl,
    NewWithRandSeed demo_source 16 0 = Ret sl0 /\
    PutAll Int_Less sl0 [3; 1; 5; 2; 6]%Z = Ret sl /\
    exists xs sl',
      iterate Int_Less sl None = Ret (map Some xs) /\
      xs ≡ₚ [6; 2; 5; 1; 3]%Z /\ sorted Int_Less xs /\
      PopFirstN 7 sl = Ret (sl', map Some (take 7 xs)
                                   ++ replicate (7 - length xs) None) /\
      iterate Int_Less sl' None = Ret (map Some (drop 7 xs)) /\
      Len sl' = (Len sl - Z.of_nat (min 7 (length [6; 2; 5; 1; 3]%Z)))%Z.
Proof.
  run_puts.
  eapply (popfirst_n_drains_sorted Int_Less demo_source Int_Less_irrefl
            Int_Less_trans Int_Less_negtrans).
  from_puts Int_Less 16%Z [3; 1; 5; 2; 6]%Z.
Defined.

Lemma clear_empties_witness :
  exists sl0 sl,
    NewWithRandSeed demo_source 16 0 = Ret sl0 /\
    PutAll Int_Less sl0 [3; 1; 5; 2; 6]%Z = Ret sl /\
    exists sl',
      Clear sl = Ret sl' /\ Len sl' = 0%Z /\
      iterate Int_Less sl' None = Ret [] /\ First sl' = Ret None /\
      PopFirst sl' = Ret (sl', None) /\ Clear sl' = Ret sl'.
Proof.
  run_puts.
  lazymatch goal with |- context [Clear ?s = _] =>
    destruct (clear_empties Int_Less demo_source Int_Less_irrefl
                Int_Less_trans Int_Less_negtrans s [6; 2; 5; 1; 3]%Z)
      as (sl' & H1 & _ & H2 & H3 & H4 & H5 & H6 & _)
  end.
  - from_puts Int_Less 16%Z [3; 1; 5; 2; 6]%Z.
  - exists sl'. exact (conj H1 (conj H2 (conj H3 (conj H4 (conj H5 H6))))).
Defined.

Lemma iterate_from_start_witness :
  exists sl0 sl,
    NewWithRandSeed demo_source 16 0 = Ret sl0 /\
    PutAll Int_Less sl0 [3; 1; 5; 2; 6]%Z = Ret sl /\
    exists lo hi,
      iterate Int_Less sl None = Ret (map Some (lo ++ hi)) /\
      Forall (fun y => Int_Less y 4%Z = true) lo /\
      Forall (fun y => Int_Less y 4%Z = false) hi /\
      iterate Int_Less sl (Some 4%Z) = Ret (map Some hi).
Proof.
  run_puts.
  eapply (iterate_from_start Int_Less demo_source Int_Less_irrefl
            Int_Less_trans Int_Less_negtrans).
  from_puts Int_Less 16%Z [3; 1; 5; 2; 6]%Z.
Defined.

Lemma iterator_item_edges_witness :
  exists sl0 sl,
    NewWithRandSeed demo_source 16 0 = Ret sl0 /\
    PutAll Int_Less sl0 [3; 1; 5; 2; 6]%Z = Ret sl /\
    (exists iter, NewIterator Int_Less sl None = Ret iter /\
                  Item_ sl iter = Ret None) /\
    (exists lo hi iter,
       iterate Int_Less sl None = Ret (map Some (lo ++ hi)) /\
       Forall (fun y => Int_Less y 4%Z = true) lo /\
       Forall (fun y => Int_Less y 4%Z = false) hi /\
       NewIterator Int_Less sl (Some 4%Z) = Ret iter /\
       Item_ sl iter = Ret (last lo)).
Proof.
  run_puts.
  lazymatch goal with |- context [NewIterator _ ?s None] =>
    destruct (iterator_item_edges Int_Less demo_source Int_Less_irrefl
                Int_Less_trans Int_Less_negtrans s [6; 2; 5; 1; 3]%Z)
      as (H1 & H2 & _)
  end.
  - from_puts Int_Less 16%Z [3; 1; 5; 2; 6]%Z.
  - split; [exact H1 | exact (H2 4%Z)].
Defined.

(** The second call of randLevel on [demo_source]: one successful trial,
    then a failed one. *)
Lemma randLevel_exact_witness :
  exists sl0 sl lvl rest,
    NewWithRandSeed demo_source 16 0 = Ret sl0 /\
    PutAll Int_Less sl0 [3%Z] = Ret sl /\
    randLevel sl = Ret (lvl, rest) /\
    exists wins r,
      sl_rand sl = wins ++ r :: rest /\
      Forall (fun d => (Z.land d 0xffff < FactorP_threshold)%Z) wins /\
      (FactorP_threshold <= Z.land r 0xffff)%Z /\
      lvl = Z.min (1 + Z.of_nat (length wins)) (sl_maxLevel sl) /\
      ((1 <= sl_maxLevel sl)%Z -> (1 <= lvl <= sl_maxLevel sl)%Z).
Proof.
  eexists _, _, _, _. split; [vm_compute; reflexivity|].
  split; [vm_compute; reflexivity|]. split; [vm_compute; reflexivity|].
  eapply randLevel_exact. vm_compute; reflexivity.
Defined.

Lemma print_levels_witness :
  exists sl0 sl,
    NewWithRandSeed demo_source 16 0 = Ret sl0 /\
    PutAll Int_Less sl0 [3; 1; 5; 2; 6]%Z = Ret sl /\
    exists levels,
      Print (fun x : Int => pretty x) sl []
        = Ret ([] ++ print_lines (fun x : Int => pretty x) 0 levels) /\
      length levels = Z.to_nat (Level sl) /\
      (forall xs, head levels = Some xs ->
                  iterate Int_Less sl None = Ret (map Some xs)) /\
      (forall i a b, levels !! i = Some a -> levels !! S i = Some b ->
                     sublist b a) /\
      Forall (sorted Int_Less) levels.
Proof.
  run_puts.
  eapply (print_levels Int_Less demo_source Int_Less_irrefl
            Int_Less_trans Int_Less_negtrans).
  from_puts Int_Less 16%Z [3; 1; 5; 2; 6]%Z.
Defined.

Lemma iterate_all_range_witness :
  exists sl0 sl,
    NewWithRandSeed demo_source 7 0 = Ret sl0 /\
    PutAll Int_Less sl0 [4; 3; 2; 1; 0]%Z = Ret sl /\
    iterate Int_Less sl None = Ret (map Some (seqZ 0 5%Z)) /\
    Len sl = Z.max 0 5%Z.
Proof.
  run_puts.
  eapply (iterate_all_range demo_source _ [0; 1; 2; 3; 4]%Z 5%Z).
  - from_puts Int_Less 7%Z [4; 3; 2; 1; 0]%Z.
  - vm_compute. reflexivity.
Defined.

Lemma scratch_buffer_never_leaks_witness :
  exists sl0 sl,
    NewWithRandSeed demo_source 2 0 = Ret sl0 /\
    PutAll Int_Less sl0 [3; 1]%Z = Ret sl /\
    Put Int_Less (with_buf sl [Some 1%nat; Some 2%nat]) 3%Z = Put Int_Less sl 3%Z /\
    Delete Int_Less (with_buf sl [Some 1%nat; Some 2%nat]) 3%Z = Delete Int_Less sl 3%Z.
Proof.
  run_puts.
  eapply (scratch_buffer_never_leaks Int_Less demo_source Int_Less_irrefl
            Int_Less_trans Int_Less_negtrans _ [1; 3]%Z).
  - from_puts Int_Less 2%Z [3; 1]%Z.
  - vm_compute; reflexivity.
Defined.

(** The two item types of the repository: for [Int], [equal] holds exactly
    of the same integer; for the scored items of the example program it
    holds exactly of items with the same score, whatever their values.  In
    both, two items are ordered one way at most, and an item equal to one
    side of an ordered pair is ordered the same way against the other. *)
Theorem item_orders :
  (forall a b : Int, equal Int_Less a b = true <-> a = b) /\
  (forall a b : ScoreItem, equal ScoreItem_Less a b = true <-> score a = score b) /\
  (forall a b : Int, Int_Less a b = true -> Int_Less b a = false) /\
  (forall a b : ScoreItem, ScoreItem_Less a b = true -> ScoreItem_Less b a = false) /\
  (forall a b c : ScoreItem,
     equal ScoreItem_Less a b = true ->
     ScoreItem_Less a c = ScoreItem_Less b c /\
     ScoreItem_Less c a = ScoreItem_Less c b).
Proof.
  unfold equal, Int_Less, ScoreItem_Less, Int.
  split; [|split; [|split; [|split]]].
  - intros a b. rewrite andb_true_iff, !negb_true_iff, !Z.ltb_ge. lia.
  - intros a b. rewrite andb_true_iff, !negb_true_iff, !Z.ltb_ge. lia.
  - intros a b. lia.
  - intros a b. lia.
  - intros a b c. rewrite andb_true_iff, !negb_true_iff, !Z.ltb_ge.
    intros [H1 H2]. replace (score b) with (score a) by lia. done.
Qed.

Lemma new_is_empty_witness :
  exists sl,
    New demo_source 16 1234 = Ret sl /\ reach Int_Less demo_source sl [] /\
    Len sl = 0%Z /\ MaxLevel sl = 16%Z /\
    iterate Int_Less sl None = Ret [] /\ First sl = Ret None /\
    Get Int_Less sl 7%Z = Ret None /\ Has Int_Less sl 7%Z = Ret false /\
    (exists sl', Delete Int_Less sl 7%Z = Ret (sl', None) /\ Len sl' = 0%Z) /\
    PopFirst sl = Ret (sl, None).
Proof.
  apply (new_is_empty Int_Less demo_source Int_Less_irrefl Int_Less_trans
           Int_Less_negtrans 16%Z 1234%Z 7%Z).
  lia.
Defined.

Lemma operations_keep_maxLevel_witness :
  exists sl0 sl,
    NewWithRandSeed demo_source 16 0 = Ret sl0 /\
    PutAll Int_Less sl0 [3; 1; 5; 2; 6]%Z = Ret sl /\
    (forall x sl', Put Int_Less sl x = Ret sl' ->
       MaxLevel sl' = MaxLevel sl /\
       exists used, used <> [] /\ sl_rand sl = used ++ sl_rand sl') /\
    (forall x sl' r, Delete Int_Less sl x = Ret (sl', r) ->
       MaxLevel sl' = MaxLevel sl /\ sl_rand sl' = sl_rand sl) /\
    (forall sl' r, PopFirst sl = Ret (sl', r) ->
       MaxLevel sl' = MaxLevel sl /\ sl_rand sl' = sl_rand sl).
Proof.
  run_puts.
  eapply (operations_keep_maxLevel Int_Less demo_source Int_Less_irrefl
            Int_Less_trans Int_Less_negtrans).
  from_puts Int_Less 16%Z [3; 1; 5; 2; 6]%Z.
Defined.
